(** * The devp2p crawler (cmd/devp2p/crawl.go)

    A shallow embedding of the crawler of [cmd/devp2p/crawl.go]: the node
    set it maintains, the per-node update protocol [updateNode], and the
    orchestration loop [run] with its worker goroutines [runIterator].

    - Go's [time.Time] values are integers (nanoseconds counted from the
      zero time instant), [time.Duration] is a 64-bit count of nanoseconds.
    - The node set, a Go [map[enode.ID]nodeJSON], is a [gmap].
    - The two effects of [updateNode] (reading the clock and calling the
      resolver) are threaded through a small state monad over a [world].
    - [run] and its goroutines are a labelled transition system: one label
      for every step a goroutine can take, channels as explicit state. *)

From Stdlib Require Import ZArith List Bool Lia.
From stdpp Require Import base option gmap list.

Local Open Scope Z_scope.

(** ** Go's [time] package, as far as the crawler uses it *)

Module GoTime.

(** An instant: nanoseconds since the zero time (January 1, year 1, UTC). *)
Definition Instant := Z.

(** [time.Duration]: an int64 count of nanoseconds. *)
Definition Duration := Z.

Definition Nanosecond : Duration := 1.
Definition Second : Duration := 1000000000 * Nanosecond.

Definition minDuration : Duration := - 2 ^ 63.
Definition maxDuration : Duration := 2 ^ 63 - 1.

(** The zero value of [time.Time]. *)
Definition zero : Instant := 0.

(** [t.IsZero()] *)
Definition IsZero (t : Instant) : bool := t =? zero.

(** [t.Sub(u)]: the duration [t-u], saturated to the int64 range. *)
Definition Sub (t u : Instant) : Duration :=
  let d := t - u in
  if maxDuration <? d then maxDuration
  else if d <? minDuration then minDuration
  else d.

(** [t.Truncate(d)]: [t] rounded down to a multiple of [d] since the zero
    time; [t] itself when [d <= 0]. *)
Definition Truncate (t : Instant) (d : Duration) : Instant :=
  if d <=? 0 then t else t - t mod d.

End GoTime.

Import GoTime.

(** ** Machine integers *)

(** Go's [int] on a 64-bit platform: the representative of [z] in
    [[-2^63, 2^63)]. *)
Definition int_wrap (z : Z) : Z := (z + 2 ^ 63) mod 2 ^ 64 - 2 ^ 63.

(** [x++] on an [int]. *)
Definition int_incr (x : Z) : Z := int_wrap (x + 1).

(** [x / 2] on an [int]: Go's division truncates toward zero. *)
Definition int_half (x : Z) : Z := Z.quot x 2.

Definition int_range (z : Z) : Prop := - 2 ^ 63 <= z < 2 ^ 63.

(** ** Nodes and node sets *)

(** [enode.ID], a 32-byte identifier, read as a number. *)
Definition ID := N.

(** Modelled from the spec: the type [enode.Node] of package [p2p/enode],
    which is not among the sources. The crawler uses a node only through
    [n.ID()] and [n.Seq()]; [Node_record] stands for the rest of the signed
    record (endpoint and capabilities). *)
Record Node := mkNode {
  Node_ID : ID;
  Node_Seq : Z;
  Node_record : Z
}.

(** Modelled from the spec: the record type [nodeJSON] of
    [cmd/devp2p/nodeset.go], which is not among the sources. [N] is a
    pointer in Go, [None] is its nil value. *)
Record nodeJSON := mkNodeJSON {
  Seq : Z;
  N : option Node;
  Score : Z;
  FirstResponse : Instant;
  LastResponse : Instant;
  LastCheck : Instant
}.

(** The zero value of [nodeJSON], what a Go map lookup yields for a missing
    key. *)
Definition nodeJSON_zero : nodeJSON :=
  {| Seq := 0; N := None; Score := 0;
     FirstResponse := zero; LastResponse := zero; LastCheck := zero |}.

Definition set_LastCheck (t : Instant) (r : nodeJSON) : nodeJSON :=
  {| Seq := Seq r; N := N r; Score := Score r;
     FirstResponse := FirstResponse r; LastResponse := LastResponse r;
     LastCheck := t |}.

Definition set_Score (s : Z) (r : nodeJSON) : nodeJSON :=
  {| Seq := Seq r; N := N r; Score := s;
     FirstResponse := FirstResponse r; LastResponse := LastResponse r;
     LastCheck := LastCheck r |}.

Definition set_N (nn : option Node) (r : nodeJSON) : nodeJSON :=
  {| Seq := Seq r; N := nn; Score := Score r;
     FirstResponse := FirstResponse r; LastResponse := LastResponse r;
     LastCheck := LastCheck r |}.

Definition set_Seq (s : Z) (r : nodeJSON) : nodeJSON :=
  {| Seq := s; N := N r; Score := Score r;
     FirstResponse := FirstResponse r; LastResponse := LastResponse r;
     LastCheck := LastCheck r |}.

Definition set_FirstResponse (t : Instant) (r : nodeJSON) : nodeJSON :=
  {| Seq := Seq r; N := N r; Score := Score r;
     FirstResponse := t; LastResponse := LastResponse r;
     LastCheck := LastCheck r |}.

Definition set_LastResponse (t : Instant) (r : nodeJSON) : nodeJSON :=
  {| Seq := Seq r; N := N r; Score := Score r;
     FirstResponse := FirstResponse r; LastResponse := t;
     LastCheck := LastCheck r |}.

(** Modelled from the spec: [nodeSet], a Go [map[enode.ID]nodeJSON]
    declared in [cmd/devp2p/nodeset.go]. *)
Abbreviation nodeSet := (gmap ID nodeJSON).

(** ** Status codes *)

Inductive status :=
| nodeRemoved
| nodeSkipRecent
| nodeSkipIncompat
| nodeAdded
| nodeUpdated.

(** The [iota] values of the constant block. *)
Definition status_code (s : status) : Z :=
  match s with
  | nodeRemoved => 0
  | nodeSkipRecent => 1
  | nodeSkipIncompat => 2
  | nodeAdded => 3
  | nodeUpdated => 4
  end.

#[global] Instance status_eq_dec : EqDecision status.
Proof. solve_decision. Defined.

(** ** The crawler and its environment *)

(** The outcome of [disc.RequestENR(n)]: the resolved record, or an error.
    (A resolver never answers a nil record together with a nil error.) *)
Inductive ENRResult :=
| ENROk (nn : Node)
| ENRErr.

(** What [updateNode] touches outside the crawler: the wall clock and the
    resolver. The [k]-th reading of [time.Now()] is [clock k]; the answer to
    the [k]-th call of [RequestENR] is [enr k]; [requests] logs the calls
    made so far, oldest first. *)
Record world := mkWorld {
  clock : nat -> Instant;
  ticks : nat;
  enr : nat -> Node -> ENRResult;
  requests : list Node
}.

(** Modelled from the spec: the interface [enode.Iterator] of package
    [p2p/enode], which is not among the sources: [Next] advances and
    reports whether an element is available, [Node] is the current element,
    [Close] ends the iteration and makes every later (or blocked) [Next]
    report false. An iterator is the lazy sequence [items] it will yield
    ([None] from the index where it is exhausted), the number [pos] of
    elements handed out so far, and whether it was closed. *)
Record iterator := mkIterator {
  items : nat -> option Node;
  pos : nat;
  it_closed : bool
}.

(** [it.Next()] together with [it.Node()]: the element, if there is one,
    and the iterator advanced past it. *)
Definition iterator_Next (it : iterator) : option Node * iterator :=
  if it_closed it then (None, it)
  else match items it (pos it) with
       | Some n =>
           (Some n, {| items := items it; pos := S (pos it);
                       it_closed := it_closed it |})
       | None => (None, it)
       end.

(** [it.Close()] *)
Definition iterator_Close (it : iterator) : iterator :=
  {| items := items it; pos := pos it; it_closed := true |}.

(** [enode.IterNodes(nodes)]: the iterator over a slice. *)
Definition IterNodes (nodes : list Node) : iterator :=
  {| items := fun k => nodes !! k; pos := 0%nat; it_closed := false |}.

(** Modelled from the spec: [nodeSet.nodes] of [cmd/devp2p/nodeset.go],
    which is not among the sources: the records of the set, every identity
    once. *)
Definition nodes (ns : nodeSet) : list Node :=
  omap (fun kv => N kv.2) (map_to_list ns).

(** The [crawler] struct. [iters] holds the iterators themselves, and
    [inputIter] designates the replay iterator by its index in [iters]
    (the comparison [it == c.inputIter] of [run] compares identities). The
    channels [ch] and [closed] are part of the state of the transition
    system of [run] below; the resolver [disc] is in the [world]. *)
Record crawler := mkCrawler {
  input : nodeSet;
  output : nodeSet;
  iters : list iterator;
  inputIter : nat;
  revalidateInterval : Duration
}.

Definition set_output (o : nodeSet) (c : crawler) : crawler :=
  {| input := input c; output := o; iters := iters c;
     inputIter := inputIter c;
     revalidateInterval := revalidateInterval c |}.

Definition set_iters (its : list iterator) (c : crawler) : crawler :=
  {| input := input c; output := output c; iters := its;
     inputIter := inputIter c;
     revalidateInterval := revalidateInterval c |}.

(** The assignment [c.revalidateInterval = d] the caller makes after
    construction. *)
Definition set_revalidateInterval (d : Duration) (c : crawler) : crawler :=
  {| input := input c; output := output c; iters := iters c;
     inputIter := inputIter c; revalidateInterval := d |}.

(** [newCrawler]: the replay iterator is appended to the given iterators,
    and the output set starts as an entry-by-entry copy of the input set.
    [revalidateInterval] is left at its zero value. *)
Definition newCrawler (inp : nodeSet) (its : list iterator) : crawler :=
  {| input := inp;
     output := map_fold (fun id n out => <[id := n]> out) ∅ inp;
     iters := its ++ [IterNodes (nodes inp)];
     inputIter := length its;
     revalidateInterval := 0 |}.

(** *** A state monad over the crawler and the world *)

Definition M (A : Type) : Type := crawler -> world -> A * crawler * world.

Definition ret {A} (a : A) : M A := fun c w => (a, c, w).

Definition bind {A B} (m : M A) (k : A -> M B) : M B :=
  fun c w => let '(a, c', w') := m c w in k a c' w'.

Notation "'let*' x ':=' m 'in' k" := (bind m (fun x => k))
  (at level 10, x name, m at level 100, k at level 200).
Notation "m '>>' k" := (bind m (fun _ => k))
  (at level 100, k at level 200, right associativity).

Definition get_crawler : M crawler := fun c w => (c, c, w).

Definition modify_output (f : nodeSet -> nodeSet) : M unit :=
  fun c w => (tt, set_output (f (output c)) c, w).

(** [time.Now()] *)
Definition time_Now : M Instant :=
  fun c w =>
    (clock w (ticks w), c,
     {| clock := clock w; ticks := S (ticks w);
        enr := enr w; requests := requests w |}).

(** [time.Since(t)], that is [time.Now().Sub(t)]. The instants the crawler
    passes carry no monotonic reading (they come from [truncNow] or from
    the input set), so the difference is the one of the wall clock. *)
Definition time_Since (t : Instant) : M Duration :=
  let* now := time_Now in ret (Sub now t).

(** [truncNow]: [time.Now().UTC().Truncate(1 * time.Second)]; [UTC] changes
    the location of the value and not the instant. *)
Definition truncNow : M Instant :=
  let* now := time_Now in ret (Truncate now (1 * Second)).

(** [c.disc.RequestENR(n)] *)
Definition RequestENR (n : Node) : M ENRResult :=
  fun c w =>
    (enr w (length (requests w)) n, c,
     {| clock := clock w; ticks := ticks w;
        enr := enr w; requests := requests w ++ [n] |}).

(** *** updateNode *)

Definition updateNode (n : Node) : M status :=
  let* c := get_crawler in
  let ok := output c !! Node_ID n in
  let node := default nodeJSON_zero ok in
  (* Skip validation of recently-seen nodes. *)
  let* recent :=
    match ok with
    | Some _ =>
        let* d := time_Since (LastCheck node) in
        ret (d <? revalidateInterval c)
    | None => ret false
    end in
  if recent then ret nodeSkipRecent else
  (* Request the node record. *)
  let* r := RequestENR n in
  let* now := truncNow in
  let node := set_LastCheck now node in
  let probed : status + nodeJSON * status :=
    match r with
    | ENRErr =>
        if Score node =? 0 then inl nodeSkipIncompat
        else inr (set_Score (int_half (Score node)) node, nodeUpdated)
    | ENROk nn =>
        let node := set_N (Some nn) node in
        let node := set_Seq (Node_Seq nn) node in
        let node := set_Score (int_incr (Score node)) node in
        let '(node, st) :=
          if IsZero (FirstResponse node)
          then (set_FirstResponse (LastCheck node) node, nodeAdded)
          else (node, nodeUpdated) in
        inr (set_LastResponse (LastCheck node) node, st)
    end in
  match probed with
  | inl st => ret st
  | inr (node, st) =>
      (* Store/update node in output set. *)
      if Score node <=? 0 then
        modify_output (delete (Node_ID n)) >> ret nodeRemoved
      else
        modify_output (insert (Node_ID n) node) >> ret st
  end.

(** The three components of what a computation returns. *)
Definition result {A} (x : A * crawler * world) : A := x.1.1.
Definition crawler_of {A} (x : A * crawler * world) : crawler := x.1.2.
Definition world_of {A} (x : A * crawler * world) : world := x.2.

(** ** run and runIterator: the crawler as a transition system *)

(** Where the goroutine [runIterator(done, it)] stands. *)
Inductive worker :=
| WNext               (* in [it.Next()], the loop condition *)
| WSend (n : Node)    (* in the [select]: sending [n] on [c.ch], or [<-c.closed] *)
| WDefer              (* left the loop, about to run the deferred [done <- it] *)
| WExit.              (* returned *)

(** Where the goroutine of [run] stands. *)
Inductive phase :=
| PLoop                 (* in the [select] of the labelled loop *)
| PClose                (* left the loop, before [close(c.closed)] *)
| PCloseIters (k : nat) (* in the loop closing the iterators, at index [k] *)
| PDrain                (* in the loop draining [doneCh] *)
| PReturned.            (* returned [c.output] *)

#[global] Instance phase_eq_dec : EqDecision phase.
Proof. solve_decision. Defined.

#[global] Instance worker_inhabited : Inhabited worker := populate WExit.

(** The tallies of the consumer loop. *)
Record tally := mkTally {
  added : Z;
  updated : Z;
  skipped : Z;
  recent : Z;
  removed : Z
}.

Definition tally_zero : tally :=
  {| added := 0; updated := 0; skipped := 0; recent := 0; removed := 0 |}.

(** The [switch] on the status returned by [updateNode]. *)
Definition count (st : status) (t : tally) : tally :=
  match st with
  | nodeSkipIncompat =>
      {| added := added t; updated := updated t;
         skipped := int_incr (skipped t); recent := recent t;
         removed := removed t |}
  | nodeSkipRecent =>
      {| added := added t; updated := updated t; skipped := skipped t;
         recent := int_incr (recent t); removed := removed t |}
  | nodeRemoved =>
      {| added := added t; updated := updated t; skipped := skipped t;
         recent := recent t; removed := int_incr (removed t) |}
  | nodeAdded =>
      {| added := int_incr (added t); updated := updated t;
         skipped := skipped t; recent := recent t; removed := removed t |}
  | _ =>
      {| added := added t; updated := int_incr (updated t);
         skipped := skipped t; recent := recent t; removed := removed t |}
  end.

(** The state of one execution of [run(timeout)]: the crawler, the world,
    the goroutines and the channels.

    - [mono] is the monotonic clock the timers run on; [started] is its
      reading when [run] created [timeoutTimer] with [time.NewTimer].
    - [timeoutCh] tells whether the variable of that name holds
      [timeoutTimer.C] (true) or is still the nil channel (false).
    - [workers] has one goroutine for each iterator of [c.iters], at the
      same index.
    - [closed] tells whether the channel [c.closed] has been closed.
    - [doneCh] is the content of the buffered channel, oldest first; its
      capacity is [len(c.iters)]. An iterator is sent as its index.
    - [nextTick] is when [statusTicker] delivers its next tick. *)
Record sys := mkSys {
  crw : crawler;
  wld : world;
  timeout : Duration;
  started : Z;
  mono : Z;
  timeoutCh : bool;
  nextTick : Z;
  workers : list worker;
  closed : bool;
  doneCh : list nat;
  liveIters : Z;
  stats : tally;
  pc : phase
}.

(** The entry of [run(timeout)] at time [t0], up to and including the
    [go] statements: the timer is created (and starts to run), the counter
    is [len(c.iters)], every goroutine stands at its first [it.Next()]. *)
Definition run_init (c : crawler) (w : world) (T : Duration) (t0 : Z) : sys :=
  {| crw := c; wld := w; timeout := T; started := t0; mono := t0;
     timeoutCh := false; nextTick := t0 + 8 * Second;
     workers := replicate (length (iters c)) WNext;
     closed := false; doneCh := [];
     liveIters := Z.of_nat (length (iters c));
     stats := tally_zero; pc := PLoop |}.

(** [timeoutTimer.C] delivers once [timeout] has elapsed since
    [time.NewTimer(timeout)]. *)
Definition timer_fired (s : sys) : bool := started s + timeout s <=? mono s.

(** Updates of single components. *)
Definition with_workers (ws : list worker) (s : sys) : sys :=
  {| crw := crw s; wld := wld s; timeout := timeout s; started := started s;
     mono := mono s; timeoutCh := timeoutCh s; nextTick := nextTick s;
     workers := ws; closed := closed s; doneCh := doneCh s;
     liveIters := liveIters s; stats := stats s; pc := pc s |}.

Definition with_crawler (c : crawler) (s : sys) : sys :=
  {| crw := c; wld := wld s; timeout := timeout s; started := started s;
     mono := mono s; timeoutCh := timeoutCh s; nextTick := nextTick s;
     workers := workers s; closed := closed s; doneCh := doneCh s;
     liveIters := liveIters s; stats := stats s; pc := pc s |}.

Definition with_mono (t : Z) (s : sys) : sys :=
  {| crw := crw s; wld := wld s; timeout := timeout s; started := started s;
     mono := t; timeoutCh := timeoutCh s; nextTick := nextTick s;
     workers := workers s; closed := closed s; doneCh := doneCh s;
     liveIters := liveIters s; stats := stats s; pc := pc s |}.

Definition with_pc (p : phase) (s : sys) : sys :=
  {| crw := crw s; wld := wld s; timeout := timeout s; started := started s;
     mono := mono s; timeoutCh := timeoutCh s; nextTick := nextTick s;
     workers := workers s; closed := closed s; doneCh := doneCh s;
     liveIters := liveIters s; stats := stats s; pc := p |}.

(** The steps of the goroutines. *)
Inductive label :=
| LNext (i : nat)     (* worker [i]: [it.Next()] returns *)
| LAbort (i : nat)    (* worker [i]: [case <-c.closed: return] *)
| LNotify (i : nat)   (* worker [i]: the deferred [done <- it] *)
| LNode (i : nat) (d : Duration)
                      (* [case n := <-c.ch], from worker [i]; the call of
                         [updateNode] takes [d] *)
| LDone               (* [case it := <-doneCh] *)
| LTimeout            (* [case <-timeoutCh] *)
| LStatus             (* [case <-statusTicker.C] *)
| LCloseSignal        (* [close(c.closed)] *)
| LCloseIter          (* one turn of the loop over [it.Close()] *)
| LDrain              (* one turn of the loop over [<-doneCh] *)
| LReturn             (* [return c.output] *)
| LWait (d : Duration). (* time passes *)

(** One step; [None] when the step is not enabled in [s]. *)
Definition step (l : label) (s : sys) : option sys :=
  match l with
  | LNext i =>
      match workers s !! i, iters (crw s) !! i with
      | Some WNext, Some it =>
          let '(on, it') := iterator_Next it in
          let w' := match on with Some n => WSend n | None => WDefer end in
          Some (with_crawler (set_iters (<[i := it']> (iters (crw s))) (crw s))
                  (with_workers (<[i := w']> (workers s)) s))
      | _, _ => None
      end
  | LAbort i =>
      match workers s !! i with
      | Some (WSend _) =>
          if closed s then Some (with_workers (<[i := WDefer]> (workers s)) s)
          else None
      | _ => None
      end
  | LNotify i =>
      match workers s !! i with
      | Some WDefer =>
          if (length (doneCh s) <? length (iters (crw s)))%nat then
            Some {| crw := crw s; wld := wld s; timeout := timeout s;
                    started := started s; mono := mono s;
                    timeoutCh := timeoutCh s; nextTick := nextTick s;
                    workers := <[i := WExit]> (workers s);
                    closed := closed s; doneCh := doneCh s ++ [i];
                    liveIters := liveIters s; stats := stats s; pc := pc s |}
          else None
      | _ => None
      end
  | LNode i d =>
      match pc s, workers s !! i with
      | PLoop, Some (WSend n) =>
          if 0 <=? d then
            let r := updateNode n (crw s) (wld s) in
            Some {| crw := crawler_of r; wld := world_of r;
                    timeout := timeout s; started := started s;
                    mono := mono s + d;
                    timeoutCh := timeoutCh s; nextTick := nextTick s;
                    workers := <[i := WNext]> (workers s);
                    closed := closed s; doneCh := doneCh s;
                    liveIters := liveIters s;
                    stats := count (result r) (stats s); pc := pc s |}
          else None
      | _, _ => None
      end
  | LDone =>
      match pc s, doneCh s with
      | PLoop, it :: rest =>
          (* Enable timeout when we're done revalidating the input nodes. *)
          let tch :=
            if (it =? inputIter (crw s))%nat
            then (if 0 <? timeout s then true else timeoutCh s)
            else timeoutCh s in
          let live := int_wrap (liveIters s - 1) in
          Some {| crw := crw s; wld := wld s; timeout := timeout s;
                  started := started s; mono := mono s;
                  timeoutCh := tch; nextTick := nextTick s;
                  workers := workers s; closed := closed s; doneCh := rest;
                  liveIters := live; stats := stats s;
                  pc := if live =? 0 then PClose else PLoop |}
      | _, _ => None
      end
  | LTimeout =>
      match pc s with
      | PLoop =>
          if timeoutCh s && timer_fired s then Some (with_pc PClose s)
          else None
      | _ => None
      end
  | LStatus =>
      match pc s with
      | PLoop =>
          if nextTick s <=? mono s then
            let period := 8 * Second in
            Some {| crw := crw s; wld := wld s; timeout := timeout s;
                    started := started s; mono := mono s;
                    timeoutCh := timeoutCh s;
                    nextTick :=
                      nextTick s
                      + period * ((mono s - nextTick s) / period + 1);
                    workers := workers s; closed := closed s;
                    doneCh := doneCh s; liveIters := liveIters s;
                    stats := stats s; pc := pc s |}
          else None
      | _ => None
      end
  | LCloseSignal =>
      match pc s with
      | PClose =>
          Some {| crw := crw s; wld := wld s; timeout := timeout s;
                  started := started s; mono := mono s;
                  timeoutCh := timeoutCh s; nextTick := nextTick s;
                  workers := workers s; closed := true; doneCh := doneCh s;
                  liveIters := liveIters s; stats := stats s;
                  pc := PCloseIters 0 |}
      | _ => None
      end
  | LCloseIter =>
      match pc s with
      | PCloseIters k =>
          match iters (crw s) !! k with
          | Some it =>
              Some (with_pc (PCloseIters (S k))
                      (with_crawler
                         (set_iters (<[k := iterator_Close it]> (iters (crw s)))
                            (crw s)) s))
          | None => Some (with_pc PDrain s)
          end
      | _ => None
      end
  | LDrain =>
      match pc s, doneCh s with
      | PDrain, _ :: rest =>
          if 0 <? liveIters s then
            Some {| crw := crw s; wld := wld s; timeout := timeout s;
                    started := started s; mono := mono s;
                    timeoutCh := timeoutCh s; nextTick := nextTick s;
                    workers := workers s; closed := closed s; doneCh := rest;
                    liveIters := int_wrap (liveIters s - 1);
                    stats := stats s; pc := pc s |}
          else None
      | _, _ => None
      end
  | LReturn =>
      match pc s with
      | PDrain => if 0 <? liveIters s then None else Some (with_pc PReturned s)
      | _ => None
      end
  | LWait d => if 0 <? d then Some (with_mono (mono s + d) s) else None
  end.

(** A run: the steps of a schedule, one after the other. *)
Fixpoint exec (ls : list label) (s : sys) : option sys :=
  match ls with
  | [] => Some s
  | l :: ls' =>
      match step l s with
      | Some s' => exec ls' s'
      | None => None
      end
  end.

(** ** Vocabulary of the properties of [updateNode] *)

(** The answer the resolver gives to the next request, made for [n]. *)
Definition resolution (n : Node) (w : world) : ENRResult :=
  enr w (length (requests w)) n.

(** The condition [ok && time.Since(node.LastCheck) < c.revalidateInterval]
    as the next call [updateNode(n)] will evaluate it. *)
Definition recently_seen (n : Node) (c : crawler) (w : world) : bool :=
  match output c !! Node_ID n with
  | Some r => Sub (clock w (ticks w)) (LastCheck r) <? revalidateInterval c
  | None => false
  end.

(** The next call [updateNode(n)] reaches the resolver. *)
Definition not_recent (n : Node) (c : crawler) (w : world) : Prop :=
  recently_seen n c w = false.

(** The value [truncNow()] returns in the next call [updateNode(n)] that
    reaches the resolver: the clock is read once before, for [time.Since],
    when [n] has a record. *)
Definition check_time (n : Node) (c : crawler) (w : world) : Instant :=
  Truncate
    (clock w (match output c !! Node_ID n with
              | Some _ => S (ticks w)
              | None => ticks w
              end))
    (1 * Second).

(** The record the next call [updateNode(n)] works on: the record of [n],
    or the zero value. *)
Definition current (n : Node) (c : crawler) : nodeJSON :=
  default nodeJSON_zero (output c !! Node_ID n).

(** The next call [updateNode(n)] reaches the resolver, which fails. *)
Definition probe_fails (n : Node) (c : crawler) (w : world) : Prop :=
  not_recent n c w /\ resolution n w = ENRErr.

(** What the consumer loop observes over a sequence of deliveries: for
    every call of [updateNode], the candidate, the status returned and the
    output set after the call, oldest first. *)
Fixpoint history (ns : list Node) (c : crawler) (w : world)
  : list (Node * status * nodeSet) :=
  match ns with
  | [] => []
  | n :: ns' =>
      let r := updateNode n c w in
      (n, result r, output (crawler_of r))
      :: history ns' (crawler_of r) (world_of r)
  end.



(** The next [k] calls [updateNode(n)] all reach the resolver, which fails
    each time. *)
Fixpoint probes_fail (k : nat) (n : Node) (c : crawler) (w : world) : Prop :=
  match k with
  | O => True
  | S k' =>
      probe_fails n c w /\
      probes_fail k' n (crawler_of (updateNode n c w))
        (world_of (updateNode n c w))
  end.

(** Every record of a node set has a positive score. *)
Definition positive_scores (ns : nodeSet) : Prop :=
  forall id r, ns !! id = Some r -> 0 < Score r.

(** ** Vocabulary of the properties of [run] *)

Definition is_exit (w : worker) : bool :=
  match w with WExit => true | _ => false end.

(** The number of goroutines that have returned. *)
Fixpoint exited (ws : list worker) : Z :=
  match ws with
  | [] => 0
  | w :: ws' => (if is_exit w then 1 else 0) + exited ws'
  end.

(** [it.Next()] reports false. *)
Definition exhausted (it : iterator) : Prop := (iterator_Next it).1 = None.

(** The schedule [ls] can be run from [s], and the state it leads to
    ([s] itself when it cannot be run). *)
Definition runs (ls : list label) (s : sys) : bool :=
  match exec ls s with Some _ => true | None => false end.

Definition after (ls : list label) (s : sys) : sys :=
  default s (exec ls s).

(** Whether [run] has left its main loop and closed [c.closed]. *)
Definition signalled (p : phase) : bool :=
  match p with
  | PLoop | PClose => false
  | _ => true
  end.

(** Whether [run] has called [Close] on the iterator at index [j]. *)
Definition closed_by_run (p : phase) (j : nat) : bool :=
  match p with
  | PLoop | PClose => false
  | PCloseIters k => (j <? k)%nat
  | PDrain | PReturned => true
  end.

(** What holds in every state of an execution of [run]. *)
Record consistent (s : sys) : Prop := mkConsistent {
  (* one goroutine for each iterator; a slice length is an [int] *)
  ok_workers : length (workers s) = length (iters (crw s));
  ok_int : Z.of_nat (length (iters (crw s))) < 2 ^ 63;
  (* [liveIters] counts the notifications not yet received: those still in
     [doneCh] and those of the goroutines still running *)
  ok_live :
    liveIters s + exited (workers s)
    = Z.of_nat (length (iters (crw s))) + Z.of_nat (length (doneCh s));
  ok_live_le : liveIters s <= Z.of_nat (length (iters (crw s)));
  (* [doneCh] holds notifications of goroutines that returned, each once *)
  ok_done : Forall (fun i => workers s !! i = Some WExit) (doneCh s);
  ok_nodup : NoDup (doneCh s);
  (* [timeoutCh] is only set for a positive timeout, once the notification
     of the replay iterator has been received *)
  ok_armed :
    timeoutCh s = true ->
    0 < timeout s /\
    workers s !! inputIter (crw s) = Some WExit /\
    inputIter (crw s) ∉ doneCh s;
  (* the shutdown sequence *)
  ok_closed : closed s = signalled (pc s);
  ok_iters_closed :
    forall j it,
      iters (crw s) !! j = Some it ->
      closed_by_run (pc s) j = true ->
      it_closed it = true;
  ok_returned : pc s = PReturned -> liveIters s <= 0;
  (* a goroutine leaves its loop when its iterator is exhausted, or after
     [c.closed] was closed *)
  ok_finished :
    forall i it w,
      iters (crw s) !! i = Some it ->
      workers s !! i = Some w ->
      w = WDefer \/ w = WExit ->
      closed s = true \/ exhausted it
}.

(** Every goroutine has returned, every notification has been received,
    and every iterator reports that it is exhausted. *)
Definition all_exhausted (s : sys) : Prop :=
  liveIters s = 0 /\
  doneCh s = [] /\
  Forall (fun w => w = WExit) (workers s) /\
  Forall exhausted (iters (crw s)).

(** What holds in every state of an execution of [run(timeout)] with
    [timeout <= 0]. *)
Definition untimed (s : sys) : Prop :=
  timeout s <= 0 /\ timeoutCh s = false /\ (pc s <> PLoop -> all_exhausted s).

(** In the loop, a positive timeout is armed as soon as the notification
    of the replay iterator has been received. *)
Definition arms (s : sys) : Prop :=
  pc s = PLoop ->
  0 < timeout s ->
  workers s !! inputIter (crw s) = Some WExit ->
  inputIter (crw s) ∉ doneCh s ->
  timeoutCh s = true.

(** *** The work left in the shutdown sequence *)

(** What is left to do for a goroutine before it has returned. *)
Definition worker_rank (w : worker) : nat :=
  match w with
  | WNext | WSend _ => 2
  | WDefer => 1
  | WExit => 0
  end.

Fixpoint work (ws : list worker) : nat :=
  match ws with
  | [] => 0
  | w :: ws' => worker_rank w + work ws'
  end.

(** What is left to do for [run] itself, with [n] iterators. *)
Definition phase_rank (n : nat) (p : phase) : nat :=
  match p with
  | PLoop => n + 5
  | PClose => n + 4
  | PCloseIters k => 3 + (n - k)
  | PDrain => 1
  | PReturned => 0
  end.

Definition remaining (s : sys) : nat :=
  phase_rank (length (iters (crw s))) (pc s) + work (workers s)
  + Z.to_nat (liveIters s).

(** The index of a goroutine that has not returned. *)
Fixpoint first_live (ws : list worker) : option nat :=
  match ws with
  | [] => None
  | w :: ws' => if is_exit w then S <$> first_live ws' else Some 0%nat
  end.

(** ** Vocabulary of the further properties of [run] *)

(** *** The steps left once [run] has left its loop *)

Definition is_wait (l : label) : bool :=
  match l with LWait _ => true | _ => false end.

(** The steps a goroutine can still take: [it.Next()], the [select], the
    deferred notification. *)
Definition worker_todo (w : worker) : nat :=
  match w with
  | WNext => 3
  | WSend _ => 2
  | WDefer => 1
  | WExit => 0
  end.

Fixpoint workers_todo (ws : list worker) : nat :=
  match ws with
  | [] => 0
  | w :: ws' => worker_todo w + workers_todo ws'
  end.

Definition todo (s : sys) : nat :=
  phase_rank (length (iters (crw s))) (pc s)
  + workers_todo (workers s)
  + Z.to_nat (liveIters s).

(** *** Counting what [run] receives on [c.ch] *)

Definition is_delivery (l : label) : bool :=
  match l with LNode _ _ => true | _ => false end.

(** The number of nodes received on [c.ch] in a schedule. *)
Fixpoint deliveries (ls : list label) : Z :=
  match ls with
  | [] => 0
  | l :: ls' => (if is_delivery l then 1 else 0) + deliveries ls'
  end.

Definition tally_total (t : tally) : Z :=
  added t + updated t + skipped t + recent t + removed t.

Definition tally_ok (t : tally) : Prop :=
  0 <= added t /\ 0 <= updated t /\ 0 <= skipped t /\ 0 <= recent t /\
  0 <= removed t.

(** *** What a goroutine has handed to [run] *)

Definition is_delivery_of (i : nat) (l : label) : bool :=
  match l with LNode j _ => (j =? i)%nat | _ => false end.

(** The number of nodes received on [c.ch] from goroutine [i]. *)
Fixpoint delivered (i : nat) (ls : list label) : nat :=
  match ls with
  | [] => 0
  | l :: ls' => (if is_delivery_of i l then 1 else 0) + delivered i ls'
  end.

(** Goroutine [i], whose iterator was [it0] at the entry of [run], after
    [d] of its nodes were received: the iterator yields the same sequence
    and has advanced by [d], and by one more while the goroutine offers a
    node (or was released by [c.closed] while offering it). *)
Definition fed (i : nat) (it0 : iterator) (d : nat) (s : sys) : Prop :=
  exists it,
    iters (crw s) !! i = Some it /\
    items it = items it0 /\
    (closed s = false -> it_closed it = it_closed it0) /\
    (forall k, (k < d)%nat -> is_Some (items it0 (pos it0 + k)%nat)) /\
    match workers s !! i with
    | Some WNext => pos it = (pos it0 + d)%nat
    | Some (WSend n) =>
        pos it = S (pos it0 + d) /\ items it0 (pos it0 + d)%nat = Some n
    | Some _ =>
        (pos it0 + d <= pos it <= S (pos it0 + d))%nat /\
        (closed s = false ->
         pos it = (pos it0 + d)%nat /\
         (it_closed it0 = false -> items it0 (pos it0 + d)%nat = None))
    | None => False
    end.

(** ** Sample data *)

Module Sample.

(** An instant in the year 2026, not on a second boundary. *)
Definition epoch : Instant := 63900000000 * Second + 123456789.

(** A clock whose successive readings are one hour apart. *)
Definition hourly (k : nat) : Instant := epoch + Z.of_nat k * (3600 * Second).

Definition peer : Node := mkNode 7%N 3 0.
Definition peer' : Node := mkNode 7%N 4 1.
Definition other : Node := mkNode 9%N 1 0.

(** A resolver that fails every request, and one that answers [peer']. *)
Definition unreachable : world :=
  {| clock := hourly; ticks := 0; enr := fun _ _ => ENRErr; requests := [] |}.
Definition reachable : world :=
  {| clock := hourly; ticks := 0; enr := fun _ _ => ENROk peer';
     requests := [] |}.

(** A record of [peer] with score [s], last checked two hours before
    [epoch]. *)
Definition seed (s : Z) : nodeJSON :=
  {| Seq := 3; N := Some peer; Score := s;
     FirstResponse := 63800000000 * Second;
     LastResponse := 63899990000 * Second;
     LastCheck := 63899992800 * Second |}.

(** A crawler without discovery iterators, revalidating after [d]. *)
Definition crawl (d : Duration) (inp : nodeSet) : crawler :=
  set_revalidateInterval d (newCrawler inp []).

Definition minutes (k : Z) : Duration := k * (60 * Second).
Definition seconds (k : Z) : Duration := k * Second.

(** A discovery iterator that never ends. *)
Definition endless : iterator :=
  {| items := fun _ => Some other; pos := 0%nat; it_closed := false |}.

End Sample.

(** ** Sample executions of [run] *)

Module SampleRun.
Import Sample.

(** One discovery iterator (index 0) and the replay iterator (index 1)
    over an input set of one node. *)
Definition gated : crawler :=
  set_revalidateInterval (minutes 10) (newCrawler {[7%N := seed 4]} [endless]).

(** [run(5s)] entered at time 0. *)
Definition gated_run : sys := run_init gated unreachable (seconds 5) 0.

(** The replay goroutine hands over the node of the input set, the
    resolver takes ten seconds to fail, the replay goroutine finds its
    iterator exhausted and notifies; the discovery goroutine has not come
    back from [it.Next()]. *)
Definition slow_replay : list label :=
  [LNext 1; LNode 1 (seconds 10); LNext 1; LNotify 1].

(** The shutdown sequence of [gated_run], in which the discovery
    goroutine is released by the [Close] of its iterator. *)
Definition shutdown : list label :=
  [LCloseSignal; LCloseIter; LCloseIter; LCloseIter;
   LNext 0; LNotify 0; LDrain; LReturn].

(** What to look at in a state. *)
Definition view (s : sys) : Z * bool * phase := (mono s, timeoutCh s, pc s).

(** A crawl that only replays its input set, with [run(0)]. *)
Definition replay_only : sys :=
  run_init (crawl (minutes 10) {[7%N := seed 4]}) unreachable 0 0.

Definition replay : list label :=
  [LNext 0; LNode 0 (seconds 1); LNext 0; LNotify 0; LDone].

End SampleRun.

(** * Properties *)

(** ** Arithmetic of scores *)

Lemma int_wrap_id z : int_range z -> int_wrap z = z.
Proof.
  unfold int_range, int_wrap. intros H.
  rewrite Z.mod_small; lia.
Qed.

Lemma int_wrap_range z : int_range (int_wrap z).
Proof.
  unfold int_range, int_wrap.
  pose proof (Z.mod_pos_bound (z + 2 ^ 63) (2 ^ 64) ltac:(lia)). lia.
Qed.

Lemma int_half_pos s : 0 < s -> 0 <= int_half s < s.
Proof.
  intros H. unfold int_half.
  split; [apply Z.quot_pos; lia | apply Z.quot_lt; lia].
Qed.

Lemma int_half_nonpos s : s <= 0 -> int_half s <= 0.
Proof.
  intros H. unfold int_half.
  rewrite <- (Z.opp_involutive s), Z.quot_opp_l by lia.
  pose proof (Z.quot_pos (- s) 2 ltac:(lia) ltac:(lia)). lia.
Qed.

Lemma int_half_iter_nonpos k s : s <= 0 -> Nat.iter k int_half s <= 0.
Proof.
  induction k as [|k IH]; intros H; [exact H|].
  rewrite Nat.iter_succ. apply int_half_nonpos, IH, H.
Qed.

Lemma int_half_iter_nonneg k s : 0 <= s -> 0 <= Nat.iter k int_half s.
Proof.
  induction k as [|k IH]; intros H; [exact H|].
  rewrite Nat.iter_succ. specialize (IH H).
  unfold int_half at 1. apply Z.quot_pos; lia.
Qed.

(** ** The copy made by [newCrawler] *)

Lemma newCrawler_output (inp : nodeSet) its :
  output (newCrawler inp its) = inp.
Proof.
  unfold newCrawler; simpl.
  apply (map_fold_weak_ind (fun (out m : nodeSet) => out = m)).
  - reflexivity.
  - intros i x m out Hi IH. congruence.
Qed.

(** ** One call of [updateNode], case by case *)

Ltac run_update :=
  unfold updateNode, bind, get_crawler, time_Since, truncNow, time_Now,
    RequestENR, modify_output, ret, result, crawler_of, world_of; simpl.

Lemma set_output_same c : set_output (output c) c = c.
Proof. destruct c; reflexivity. Qed.

(** The call returns early for a recently checked node. *)
Lemma updateNode_recent n c w r :
  output c !! Node_ID n = Some r ->
  Sub (clock w (ticks w)) (LastCheck r) < revalidateInterval c ->
  updateNode n c w =
    (nodeSkipRecent, c,
     {| clock := clock w; ticks := S (ticks w); enr := enr w;
        requests := requests w |}).
Proof.
  intros Hr Hlt. run_update. rewrite Hr; simpl.
  apply Z.ltb_lt in Hlt. rewrite Hlt. reflexivity.
Qed.

(** A failed resolution. *)
Lemma updateNode_failure n c w :
  probe_fails n c w ->
  let node := current n c in
  let h := int_half (Score node) in
  result (updateNode n c w) =
    (if Score node =? 0 then nodeSkipIncompat
     else if h <=? 0 then nodeRemoved else nodeUpdated) /\
  output (crawler_of (updateNode n c w)) =
    (if Score node =? 0 then output c
     else if h <=? 0 then delete (Node_ID n) (output c)
     else <[Node_ID n := set_Score h (set_LastCheck (check_time n c w) node)]>
            (output c)) /\
  requests (world_of (updateNode n c w)) = requests w ++ [n].
Proof.
  intros [Hnr Hres].
  unfold not_recent, recently_seen, resolution, current, check_time in *.
  run_update.
  destruct (output c !! Node_ID n) as [r|] eqn:Hr; simpl.
  - rewrite Hnr. simpl. rewrite Hres. simpl.
    destruct (Score r =? 0) eqn:Hz; simpl; [auto|].
    destruct (int_half (Score r) <=? 0); simpl; auto.
  - rewrite Hres. simpl. auto.
Qed.

(** A successful resolution. *)
Lemma updateNode_success n c w nn :
  not_recent n c w ->
  resolution n w = ENROk nn ->
  let node := current n c in
  let now := check_time n c w in
  let s := int_incr (Score node) in
  let fresh := IsZero (FirstResponse node) in
  let node' :=
    {| Seq := Node_Seq nn; N := Some nn; Score := s;
       FirstResponse := if fresh then now else FirstResponse node;
       LastResponse := now; LastCheck := now |} in
  result (updateNode n c w) =
    (if s <=? 0 then nodeRemoved
     else if fresh then nodeAdded else nodeUpdated) /\
  output (crawler_of (updateNode n c w)) =
    (if s <=? 0 then delete (Node_ID n) (output c)
     else <[Node_ID n := node']> (output c)) /\
  requests (world_of (updateNode n c w)) = requests w ++ [n].
Proof.
  intros Hnr Hres.
  unfold not_recent, recently_seen, resolution, current, check_time in *.
  run_update.
  destruct (output c !! Node_ID n) as [r|] eqn:Hr; simpl.
  - rewrite Hnr. simpl. rewrite Hres. simpl.
    destruct (IsZero (FirstResponse r)); simpl;
      destruct (int_incr (Score r) <=? 0); simpl; auto.
  - rewrite Hres. simpl. auto.
Qed.

(** Whether the next call passes the check for recently seen nodes is
    decided by one comparison. *)
Lemma recent_or_not n c w :
  (exists r, output c !! Node_ID n = Some r /\
             Sub (clock w (ticks w)) (LastCheck r) < revalidateInterval c)
  \/ not_recent n c w.
Proof.
  unfold not_recent, recently_seen.
  destruct (output c !! Node_ID n) as [r|] eqn:Hr; [|by right].
  destruct (Sub (clock w (ticks w)) (LastCheck r) <? revalidateInterval c)
    eqn:H; [|by right].
  left. exists r. split; [reflexivity | by apply Z.ltb_lt].
Qed.

Lemma no_record_not_recent n c w :
  output c !! Node_ID n = None -> not_recent n c w.
Proof. unfold not_recent, recently_seen. by intros ->. Qed.

(** What a call does to the output set, by status: nothing, a deletion, or
    the insertion of a record with a positive score. *)
Lemma updateNode_output_cases n c w :
  let r := updateNode n c w in
  match result r with
  | nodeSkipRecent | nodeSkipIncompat => output (crawler_of r) = output c
  | nodeRemoved => output (crawler_of r) = delete (Node_ID n) (output c)
  | nodeAdded | nodeUpdated =>
      exists node, 0 < Score node /\
        output (crawler_of r) = <[Node_ID n := node]> (output c)
  end.
Proof.
  destruct (recent_or_not n c w) as [(r & Hr & Hlt)|Hnr].
  - rewrite (updateNode_recent _ _ _ _ Hr Hlt). reflexivity.
  - destruct (resolution n w) as [nn|] eqn:Hres.
    + destruct (updateNode_success n c w nn Hnr Hres) as (Hst & Hout & _).
      cbv zeta. rewrite Hst, Hout.
      destruct (int_incr (Score (current n c)) <=? 0) eqn:Hs; [reflexivity|].
      apply Z.leb_gt in Hs.
      destruct (IsZero (FirstResponse (current n c)));
        (eexists; split; [|reflexivity]; exact Hs).
    + destruct (updateNode_failure n c w (conj Hnr Hres)) as (Hst & Hout & _).
      cbv zeta. rewrite Hst, Hout.
      destruct (Score (current n c) =? 0); [reflexivity|].
      destruct (int_half (Score (current n c)) <=? 0) eqn:Hs; [reflexivity|].
      apply Z.leb_gt in Hs. eexists; split; [|reflexivity]; exact Hs.
Qed.

Lemma updateNode_keeps_positive n c w :
  positive_scores (output c) ->
  positive_scores (output (crawler_of (updateNode n c w))).
Proof.
  intros Hpos. pose proof (updateNode_output_cases n c w) as H. cbv zeta in H.
  unfold positive_scores in *.
  destruct (result (updateNode n c w)).
  - rewrite H. intros id r Hl. apply lookup_delete_Some in Hl as [_ Hl]. eauto.
  - rewrite H. exact Hpos.
  - rewrite H. exact Hpos.
  - destruct H as (node & Hs & ->). intros id r Hl.
    apply lookup_insert_Some in Hl as [[_ <-]|[_ Hl]]; eauto.
  - destruct H as (node & Hs & ->). intros id r Hl.
    apply lookup_insert_Some in Hl as [[_ <-]|[_ Hl]]; eauto.
Qed.

Lemma updateNode_removed n c w :
  result (updateNode n c w) = nodeRemoved ->
  output (crawler_of (updateNode n c w)) !! Node_ID n = None.
Proof.
  intros Hst. pose proof (updateNode_output_cases n c w) as H. cbv zeta in H.
  rewrite Hst in H. rewrite H. apply lookup_delete_eq.
Qed.


(** A failed resolution for a record with score 0, or for no record:
    nothing is written. *)
Lemma updateNode_skip_incompat n c w :
  Score (current n c) = 0 ->
  probe_fails n c w ->
  result (updateNode n c w) = nodeSkipIncompat /\
  crawler_of (updateNode n c w) = c.
Proof.
  intros Hz Hpf.
  destruct (updateNode_failure n c w Hpf) as (Hst & _ & _).
  rewrite Hz in Hst. simpl in Hst. split; [exact Hst|].
  destruct Hpf as [Hnr Hres].
  unfold not_recent, recently_seen, resolution, current in *. run_update.
  destruct (output c !! Node_ID n) as [r|] eqn:Hr; simpl in *.
  - rewrite Hnr; simpl. rewrite Hres; simpl. rewrite Hz; reflexivity.
  - rewrite Hres; reflexivity.
Qed.


(** ** The claims about [updateNode] *)


(** C2: a candidate with a record checked less than [revalidateInterval]
    ago: the status is SkippedRecent, the resolver is not called, the
    crawler (hence the record and the whole output set) is unchanged. *)
Theorem recent_candidate_is_skipped n c w r :
  output c !! Node_ID n = Some r ->
  Sub (clock w (ticks w)) (LastCheck r) < revalidateInterval c ->
  result (updateNode n c w) = nodeSkipRecent /\
  requests (world_of (updateNode n c w)) = requests w /\
  crawler_of (updateNode n c w) = c /\
  output (crawler_of (updateNode n c w)) !! Node_ID n = Some r.
Proof.
  intros Hr Hlt. rewrite (updateNode_recent _ _ _ _ Hr Hlt).
  unfold result, crawler_of, world_of; simpl. auto.
Qed.

(** C3: a candidate with no record whose resolution succeeds: the status is
    Added, and the record stored for it has the three timestamps equal to
    the truncated current time, score 1, and the resolved record and its
    sequence number. *)
Theorem new_identity_added n c w nn :
  output c !! Node_ID n = None ->
  resolution n w = ENROk nn ->
  let now := Truncate (clock w (ticks w)) (1 * Second) in
  result (updateNode n c w) = nodeAdded /\
  output (crawler_of (updateNode n c w)) !! Node_ID n =
    Some {| Seq := Node_Seq nn; N := Some nn; Score := 1;
            FirstResponse := now; LastResponse := now; LastCheck := now |}.
Proof.
  intros Hnone Hres.
  pose proof (no_record_not_recent n c w Hnone) as Hnr.
  destruct (updateNode_success n c w nn Hnr Hres) as (Hst & Hout & _).
  unfold current, check_time in *. rewrite Hnone in *. simpl in *.
  cbv zeta. rewrite Hst, Hout. split; [reflexivity|].
  apply lookup_insert_eq.
Qed.

(** C4, as amended: a failed resolution for a candidate whose record has
    score 0, or that has no record: the status is SkippedIncompatible and
    the crawler is unchanged, so that the identity is absent from the
    output set after the call exactly when it was absent before. *)
Theorem failed_first_contact_skipped n c w :
  Score (current n c) = 0 ->
  probe_fails n c w ->
  result (updateNode n c w) = nodeSkipIncompat /\
  crawler_of (updateNode n c w) = c /\
  (output (crawler_of (updateNode n c w)) !! Node_ID n = None <->
   output c !! Node_ID n = None).
Proof.
  intros Hz Hpf.
  destruct (updateNode_skip_incompat n c w Hz Hpf) as [Hst Hc].
  rewrite Hc. auto.
Qed.

(** C5: repeated failed resolutions halve the score, truncating toward
    zero. For a record with a nonzero score that survived [k] failed probes,
    the next failed probe leaves it with the score halved [k+1] times when
    that is positive, and otherwise removes it, in that very call; from a
    positive score the halved scores are never negative. *)
Theorem failures_halve_score k n c w r :
  output c !! Node_ID n = Some r ->
  Score r <> 0 ->
  probes_fail (S k) n c w ->
  (k = 0%nat \/ 0 < Nat.iter k int_half (Score r)) ->
  let h := Nat.iter (S k) int_half (Score r) in
  (0 < Score r -> 0 <= h) /\
  exists out,
    last (history (replicate (S k) n) c w) =
      Some (n, if 0 <? h then nodeUpdated else nodeRemoved, out) /\
    Score <$> out !! Node_ID n = if 0 <? h then Some h else None.
Proof.
  revert c w r. induction k as [|k IH]; intros c w r Hr Hnz Hpf Hsurv.
  - destruct Hpf as [Hpf _].
    destruct (updateNode_failure n c w Hpf) as (Hst & Hout & _).
    unfold current in Hst, Hout. rewrite Hr in Hst, Hout. simpl in Hst, Hout.
    apply Z.eqb_neq in Hnz. rewrite Hnz in Hst, Hout.
    split; [intros Hpos; apply int_half_pos, Hpos|].
    exists (output (crawler_of (updateNode n c w))).
    change (last (history (replicate 1 n) c w))
      with (Some (n, result (updateNode n c w),
                  output (crawler_of (updateNode n c w)))).
    rewrite Hst, Hout.
    change (Nat.iter 1 int_half (Score r)) with (int_half (Score r)).
    destruct (int_half (Score r) <=? 0) eqn:Hh.
    + apply Z.leb_le in Hh. apply Z.ltb_ge in Hh as ->.
      split; [reflexivity|]. by rewrite lookup_delete_eq.
    + apply Z.leb_gt in Hh. apply Z.ltb_lt in Hh as ->.
      split; [reflexivity|]. by rewrite lookup_insert_eq.
  - destruct Hsurv as [?|Hsurv]; [discriminate|].
    rewrite Nat.iter_succ_r in Hsurv.
    assert (Hh : 0 < int_half (Score r)).
    { destruct (Z.lt_ge_cases 0 (int_half (Score r))) as [?|Hle]; [done|].
      pose proof (int_half_iter_nonpos k _ Hle). lia. }
    destruct Hpf as [Hpf Hrest].
    destruct (updateNode_failure n c w Hpf) as (_ & Hout & _).
    unfold current in Hout. rewrite Hr in Hout. simpl in Hout.
    apply Z.eqb_neq in Hnz. rewrite Hnz in Hout.
    assert (Hgt : (int_half (Score r) <=? 0) = false) by (apply Z.leb_gt, Hh).
    rewrite Hgt in Hout.
    set (r1 := set_Score (int_half (Score r))
                 (set_LastCheck (check_time n c w) r)) in Hout.
    assert (Hr1 : output (crawler_of (updateNode n c w)) !! Node_ID n = Some r1).
    { rewrite Hout. apply lookup_insert_eq. }
    destruct (IH (crawler_of (updateNode n c w)) (world_of (updateNode n c w))
                r1 Hr1) as (Hnn & out & Hlast & Hscore).
    + change (Score r1) with (int_half (Score r)). lia.
    + exact Hrest.
    + destruct k; [by left | right; exact Hsurv].
    + change (Score r1) with (int_half (Score r)) in Hnn, Hscore, Hlast.
      rewrite <- (Nat.iter_succ_r (S k)) in Hnn, Hscore, Hlast.
      split.
      * intros Hpos. apply int_half_iter_nonneg. lia.
      * exists out. split; [|exact Hscore].
        change (history (replicate (S (S k)) n) c w)
          with ((n, result (updateNode n c w),
                 output (crawler_of (updateNode n c w)))
                :: history (replicate (S k) n)
                     (crawler_of (updateNode n c w))
                     (world_of (updateNode n c w))).
        rewrite last_cons, Hlast. reflexivity.
Qed.

(** C6, as amended: a call that reaches the resolver and keeps the record
    (status Added or Updated) stores it with [LastCheck] set to the current
    time truncated to one second, after a success and after a failure
    alike; a call classified Removed leaves no record of the candidate, and
    one classified SkippedIncompatible leaves the crawler unchanged. *)
Theorem last_check_of_kept_record n c w :
  not_recent n c w ->
  let r := updateNode n c w in
  match result r with
  | nodeAdded | nodeUpdated =>
      LastCheck <$> output (crawler_of r) !! Node_ID n
      = Some (check_time n c w)
  | nodeRemoved => output (crawler_of r) !! Node_ID n = None
  | nodeSkipIncompat => crawler_of r = c
  | nodeSkipRecent => False
  end.
Proof.
  intros Hnr. cbv zeta.
  destruct (resolution n w) as [nn|] eqn:Hres.
  - destruct (updateNode_success n c w nn Hnr Hres) as (Hst & Hout & _).
    rewrite Hst, Hout.
    destruct (int_incr (Score (current n c)) <=? 0).
    + apply lookup_delete_eq.
    + destruct (IsZero (FirstResponse (current n c)));
        by rewrite lookup_insert_eq.
  - destruct (Z.eq_dec (Score (current n c)) 0) as [Hz|Hnz].
    + destruct (updateNode_skip_incompat n c w Hz (conj Hnr Hres))
        as (-> & Hc). exact Hc.
    + destruct (updateNode_failure n c w (conj Hnr Hres)) as (Hst & Hout & _).
      rewrite Hst, Hout. apply Z.eqb_neq in Hnz. rewrite Hnz.
      destruct (int_half (Score (current n c)) <=? 0).
      * apply lookup_delete_eq.
      * by rewrite lookup_insert_eq.
Qed.

(** C10: a failed resolution for a candidate whose record has a score of at
    least 1: the record stays exactly when the halved score is positive,
    and then only its [Score] (halved) and [LastCheck] have changed; the
    records of the other identities are untouched. *)
Theorem failure_frame n c w r :
  output c !! Node_ID n = Some r ->
  1 <= Score r ->
  probe_fails n c w ->
  let c' := crawler_of (updateNode n c w) in
  let h := int_half (Score r) in
  (0 < h <-> is_Some (output c' !! Node_ID n)) /\
  (forall r', output c' !! Node_ID n = Some r' ->
     N r' = N r /\ Seq r' = Seq r /\
     FirstResponse r' = FirstResponse r /\
     LastResponse r' = LastResponse r /\
     Score r' = h /\ LastCheck r' = check_time n c w) /\
  (forall id, id <> Node_ID n -> output c' !! id = output c !! id).
Proof.
  intros Hr Hs Hpf. cbv zeta.
  destruct (updateNode_failure n c w Hpf) as (_ & Hout & _).
  unfold current in *. rewrite Hr in *. simpl in *.
  assert (Hnz : (Score r =? 0) = false) by (apply Z.eqb_neq; lia).
  rewrite Hnz in Hout. rewrite Hout.
  destruct (int_half (Score r) <=? 0) eqn:Hh.
  - apply Z.leb_le in Hh. split; [|split].
    + rewrite lookup_delete_eq. split; [lia | intros [? [=]]].
    + intros r' Hr'. rewrite lookup_delete_eq in Hr'. discriminate.
    + intros id Hid. apply lookup_delete_ne. congruence.
  - apply Z.leb_gt in Hh. split; [|split].
    + rewrite lookup_insert_eq. split; [eauto | intros _; exact Hh].
    + intros r' Hr'. rewrite lookup_insert_eq in Hr'.
      injection Hr' as <-. repeat split.
    + intros id Hid. apply lookup_insert_ne. congruence.
Qed.

(** ** The claims on sample data *)

Import Sample.




Lemma recent_candidate_is_skipped_witness :
  let c := crawl (minutes 180) {[7%N := seed 4]} in
  let r := updateNode peer c unreachable in
  (output c !! 7%N = Some (seed 4) /\
   Sub (clock unreachable 0%nat) (LastCheck (seed 4)) < minutes 180) /\
  result r = nodeSkipRecent /\
  requests (world_of r) = [] /\
  crawler_of r = c /\
  output (crawler_of r) !! 7%N = Some (seed 4).
Proof.
  cbv zeta. split.
  - split; vm_compute; reflexivity.
  - apply (recent_candidate_is_skipped peer
             (crawl (minutes 180) {[7%N := seed 4]}) unreachable (seed 4));
      vm_compute; reflexivity.
Defined.

Lemma new_identity_added_witness :
  let now := 63900000000 * Second in
  result (updateNode peer (crawl (minutes 10) ∅) reachable) = nodeAdded /\
  output (crawler_of (updateNode peer (crawl (minutes 10) ∅) reachable))
    !! 7%N =
    Some {| Seq := 4; N := Some peer'; Score := 1;
            FirstResponse := now; LastResponse := now; LastCheck := now |}.
Proof.
  apply (new_identity_added peer (crawl (minutes 10) ∅) reachable peer');
    vm_compute; reflexivity.
Defined.

(** C4, as stated, fails: the record of a candidate can have score 0 (it
    came with the input set); when the resolution fails the status is
    SkippedIncompatible, and the identity is still in the output set. *)
Lemma zero_score_record_stays :
  let c := crawl (minutes 10) {[7%N := seed 0]} in
  Score (current peer c) = 0 /\
  recently_seen peer c unreachable = false /\
  resolution peer unreachable = ENRErr /\
  result (updateNode peer c unreachable) = nodeSkipIncompat /\
  output (crawler_of (updateNode peer c unreachable)) !! 7%N
  = Some (seed 0).
Proof. vm_compute. repeat split. Qed.

Lemma failed_first_contact_skipped_witness :
  let c := crawl (minutes 10) ∅ in
  let r := updateNode peer c unreachable in
  result r = nodeSkipIncompat /\
  crawler_of r = c /\
  (output (crawler_of r) !! 7%N = None <-> output c !! 7%N = None).
Proof.
  apply (failed_first_contact_skipped peer (crawl (minutes 10) ∅) unreachable).
  - vm_compute; reflexivity.
  - split; vm_compute; reflexivity.
Defined.

(** The decay 4, 2, 1, 0 of C5: three failed probes, one hour apart, of a
    record with score 4. *)
Lemma failures_halve_score_witness :
  let c := crawl (minutes 10) {[7%N := seed 4]} in
  (exists out,
     last (history [peer] c unreachable) = Some (peer, nodeUpdated, out) /\
     Score <$> out !! 7%N = Some 2) /\
  (exists out,
     last (history [peer; peer] c unreachable) = Some (peer, nodeUpdated, out) /\
     Score <$> out !! 7%N = Some 1) /\
  (0 < 4 -> 0 <= 0) /\
  (exists out,
     last (history [peer; peer; peer] c unreachable)
     = Some (peer, nodeRemoved, out) /\
     Score <$> out !! 7%N = None).
Proof.
  cbv zeta. split; [|split].
  - apply (failures_halve_score 0 peer (crawl (minutes 10) {[7%N := seed 4]})
             unreachable (seed 4)).
    + vm_compute; reflexivity.
    + vm_compute; discriminate.
    + vm_compute; auto.
    + left; reflexivity.
  - apply (failures_halve_score 1 peer (crawl (minutes 10) {[7%N := seed 4]})
             unreachable (seed 4)).
    + vm_compute; reflexivity.
    + vm_compute; discriminate.
    + vm_compute; auto.
    + right; vm_compute; reflexivity.
  - apply (failures_halve_score 2 peer (crawl (minutes 10) {[7%N := seed 4]})
             unreachable (seed 4)).
    + vm_compute; reflexivity.
    + vm_compute; discriminate.
    + vm_compute; auto 7.
    + right; vm_compute; reflexivity.
Defined.

(** C6, as stated, fails: after a call that reaches the resolver the output
    set need not show the new [LastCheck]. The first call is for an unknown
    identity and leaves no record at all; the second is for a record with
    score 0, which keeps its old [LastCheck]; the third halves a score of 1
    and removes the record. *)
Lemma last_check_not_always_stored :
  (let r := updateNode peer (crawl (minutes 10) ∅) unreachable in
   result r = nodeSkipIncompat /\ requests (world_of r) = [peer] /\
   LastCheck <$> output (crawler_of r) !! 7%N = None) /\
  (let c := crawl (minutes 10) {[7%N := seed 0]} in
   let r := updateNode peer c unreachable in
   result r = nodeSkipIncompat /\ requests (world_of r) = [peer] /\
   check_time peer c unreachable = 63900003600 * Second /\
   LastCheck <$> output (crawler_of r) !! 7%N = Some (63899992800 * Second)) /\
  (let r := updateNode peer (crawl (minutes 10) {[7%N := seed 1]}) unreachable in
   result r = nodeRemoved /\ requests (world_of r) = [peer] /\
   LastCheck <$> output (crawler_of r) !! 7%N = None).
Proof. vm_compute. repeat split. Qed.

Lemma last_check_of_kept_record_witness :
  LastCheck <$>
    output (crawler_of
              (updateNode peer (crawl (minutes 10) {[7%N := seed 4]})
                 unreachable)) !! 7%N
  = Some (63900003600 * Second) /\
  LastCheck <$>
    output (crawler_of
              (updateNode peer (crawl (minutes 10) {[7%N := seed 4]})
                 reachable)) !! 7%N
  = Some (63900003600 * Second).
Proof.
  split.
  - pose proof (last_check_of_kept_record peer
                  (crawl (minutes 10) {[7%N := seed 4]}) unreachable) as H.
    vm_compute in H. vm_compute. apply H. reflexivity.
  - pose proof (last_check_of_kept_record peer
                  (crawl (minutes 10) {[7%N := seed 4]}) reachable) as H.
    vm_compute in H. vm_compute. apply H. reflexivity.
Defined.

Lemma failure_frame_witness :
  let c := crawl (minutes 10) {[7%N := seed 4]} in
  let c' := crawler_of (updateNode peer c unreachable) in
  (0 < 2 <-> is_Some (output c' !! 7%N)) /\
  (forall r', output c' !! 7%N = Some r' ->
     N r' = Some peer /\ Seq r' = 3 /\
     FirstResponse r' = 63800000000 * Second /\
     LastResponse r' = 63899990000 * Second /\
     Score r' = 2 /\ LastCheck r' = 63900003600 * Second) /\
  (forall id, id <> 7%N -> output c' !! id = output c !! id).
Proof.
  pose proof (failure_frame peer (crawl (minutes 10) {[7%N := seed 4]})
                unreachable (seed 4)) as H.
  vm_compute in H. vm_compute.
  apply H; [reflexivity | discriminate | split; reflexivity].
Defined.

(** ** Properties of [run] *)

(** [updateNode] writes the output set and nothing else of the crawler. *)
Lemma updateNode_frame n c w :
  crawler_of (updateNode n c w)
  = set_output (output (crawler_of (updateNode n c w))) c.
Proof.
  destruct (recent_or_not n c w) as [(r & Hr & Hlt)|Hnr].
  - rewrite (updateNode_recent _ _ _ _ Hr Hlt). by destruct c.
  - unfold not_recent, recently_seen in Hnr. run_update.
    destruct (output c !! Node_ID n) as [r|]; simpl;
      rewrite ?Hnr; simpl;
      repeat (match goal with
              | |- context [match ?b with _ => _ end] => destruct b; simpl
              end);
      by destruct c.
Qed.

Lemma updateNode_iters n c w : iters (crawler_of (updateNode n c w)) = iters c.
Proof. by rewrite updateNode_frame. Qed.

Lemma updateNode_inputIter n c w :
  inputIter (crawler_of (updateNode n c w)) = inputIter c.
Proof. by rewrite updateNode_frame. Qed.

(** *** Counting the goroutines that returned *)

Lemma exited_insert ws i w w' :
  ws !! i = Some w ->
  exited (<[i := w']> ws)
  = exited ws - (if is_exit w then 1 else 0) + (if is_exit w' then 1 else 0).
Proof.
  revert i. induction ws as [|x ws IH]; intros [|i] H; simpl in *; try done.
  - injection H as ->. lia.
  - rewrite (IH _ H). lia.
Qed.

Lemma exited_bounds ws : 0 <= exited ws <= Z.of_nat (length ws).
Proof.
  induction ws as [|x ws IH]; simpl; [lia|]. destruct (is_exit x); lia.
Qed.

Lemma exited_all ws :
  exited ws = Z.of_nat (length ws) -> Forall (fun w => w = WExit) ws.
Proof.
  induction ws as [|x ws IH]; simpl; intros H; constructor.
  - pose proof (exited_bounds ws). destruct x; simpl in *; try lia. reflexivity.
  - apply IH. pose proof (exited_bounds ws). destruct (is_exit x); lia.
Qed.

Lemma exited_replicate n : exited (replicate n WNext) = 0.
Proof. induction n as [|n IH]; simpl; [reflexivity|]. by rewrite IH. Qed.

(** *** The states of an execution are consistent *)

Lemma exec_after ls s : runs ls s = true -> exec ls s = Some (after ls s).
Proof. unfold runs, after. by destruct (exec ls s). Qed.

Lemma exec_app ls1 ls2 s :
  exec (ls1 ++ ls2) s = exec ls1 s ≫= exec ls2.
Proof.
  revert s. induction ls1 as [|l ls1 IH]; intros s; simpl; [reflexivity|].
  destruct (step l s); simpl; [apply IH | reflexivity].
Qed.

(** Induction over the states of an execution. *)
Lemma exec_ind (P : sys -> Prop) s0 :
  P s0 ->
  (forall l s s', P s -> step l s = Some s' -> P s') ->
  forall ls s, exec ls s0 = Some s -> P s.
Proof.
  intros H0 Hstep ls. revert s0 H0.
  induction ls as [|l ls IH]; intros s0 H0 s; simpl.
  - by intros [= <-].
  - destruct (step l s0) as [s1|] eqn:Hs; [|done].
    apply IH. by eapply Hstep.
Qed.

Lemma run_init_consistent c w T t0 :
  Z.of_nat (length (iters c)) < 2 ^ 63 ->
  consistent (run_init c w T t0).
Proof.
  intros Hb. constructor; simpl.
  - apply length_replicate.
  - exact Hb.
  - rewrite exited_replicate. lia.
  - lia.
  - constructor.
  - constructor.
  - discriminate.
  - reflexivity.
  - discriminate.
  - discriminate.
  - intros i it w' _ Hw. apply lookup_replicate in Hw as [-> _].
    intros [|]; discriminate.
Qed.

Lemma iterator_Next_closed it o it' :
  iterator_Next it = (o, it') -> it_closed it' = it_closed it.
Proof.
  unfold iterator_Next. destruct (it_closed it) eqn:Hc.
  - by intros [= <- <-].
  - destruct (items it (pos it)); intros [= <- <-]; simpl; congruence.
Qed.

Lemma iterator_Next_None it it' :
  iterator_Next it = (None, it') -> it' = it /\ exhausted it.
Proof.
  intros H. unfold exhausted. rewrite H. split; [|reflexivity].
  unfold iterator_Next in H. destruct (it_closed it).
  - by injection H.
  - destruct (items it (pos it)); [discriminate | by injection H].
Qed.

Lemma exhausted_Close it : exhausted it -> exhausted (iterator_Close it).
Proof. reflexivity. Qed.

(** A goroutine that takes a step has not returned: the notifications in
    [doneCh] are of other goroutines. *)
Lemma still_exited (ws : list worker) i j w w' :
  ws !! i = Some w -> w <> WExit ->
  ws !! j = Some WExit -> <[i := w']> ws !! j = Some WExit.
Proof.
  intros Hi Hw Hj. rewrite list_lookup_insert_ne; [done|]. congruence.
Qed.

Lemma int_decr_live x n :
  1 <= x <= n -> n < 2 ^ 63 -> int_wrap (x - 1) = x - 1.
Proof. intros. apply int_wrap_id. unfold int_range. lia. Qed.

(** Case analysis on an enabled step. *)
Ltac step_cases H :=
  unfold step in H; cbv zeta in H;
  repeat (match type of H with
          | context [match ?x with _ => _ end] => destruct x eqn:?
          end; try discriminate H);
  injection H as <-.

Ltac fields :=
  constructor; simpl;
  rewrite ?length_insert, ?updateNode_iters, ?updateNode_inputIter,
    ?length_app;
  try assumption; try congruence.

Ltac live_field H :=
  erewrite exited_insert by exact H; simpl; lia.

Ltac done_field Hd H :=
  eapply Forall_impl; [exact Hd|];
  intros ? ?; eapply still_exited; [exact H | discriminate | assumption].

Ltac armed_field Ha H :=
  let Ht := fresh in
  intros Ht; destruct (Ha Ht) as (? & ? & ?);
  repeat split; [assumption | | assumption];
  eapply still_exited; [exact H | discriminate | assumption].

Lemma step_consistent l s s' :
  consistent s -> step l s = Some s' -> consistent s'.
Proof.
  intros [Hw Hi Hl Hle Hd Hn Ha Hc Hic Hr Hf] Hs.
  destruct l.
  - (* LNext *)
    step_cases Hs; subst.
    + fields.
      * live_field Heqo.
      * done_field Hd Heqo.
      * armed_field Ha Heqo.
      * intros j it Hj Hcl.
        apply list_lookup_insert_Some in Hj as [(-> & <- & _)|[_ Hj]]; [|eauto].
        rewrite (iterator_Next_closed _ _ _ Heqp). eauto.
      * intros j it w Hj Hwj Hfin.
        apply list_lookup_insert_Some in Hwj as [(-> & <- & _)|[Hne Hwj]].
        { destruct Hfin; discriminate. }
        rewrite list_lookup_insert_ne in Hj by done. eauto.
    + apply iterator_Next_None in Heqp as [-> Hex].
      fields.
      * live_field Heqo.
      * done_field Hd Heqo.
      * armed_field Ha Heqo.
      * intros j it Hj Hcl.
        apply list_lookup_insert_Some in Hj as [(-> & <- & _)|[_ Hj]]; eauto.
      * intros j it w Hj Hwj Hfin.
        apply list_lookup_insert_Some in Hj as [(-> & <- & _)|[Hne Hj]].
        { right; exact Hex. }
        rewrite list_lookup_insert_ne in Hwj by done. eauto.
  - (* LAbort *)
    step_cases Hs; subst. fields.
    + live_field Heqo.
    + done_field Hd Heqo.
    + armed_field Ha Heqo.
    + intros; left; congruence.
  - (* LNotify *)
    step_cases Hs; subst. fields.
    + erewrite exited_insert by exact Heqo. simpl. lia.
    + apply Forall_app. split.
      * eapply Forall_impl; [exact Hd|].
        intros j Hj. eapply still_exited; [exact Heqo | discriminate | done].
      * constructor; [|constructor].
        apply list_lookup_insert_eq. by eapply lookup_lt_Some.
    + apply NoDup_app. split; [done|]. split; [|apply NoDup_singleton].
      intros j Hj Hj'. apply list_elem_of_singleton in Hj' as ->.
      rewrite Forall_forall in Hd. specialize (Hd _ Hj). congruence.
    + intros Ht. destruct (Ha Ht) as (? & Hx & Hnot). repeat split; [done| |].
      * eapply still_exited; [exact Heqo | discriminate | done].
      * intros Hin. apply elem_of_app in Hin as [?|Hin]; [done|].
        apply list_elem_of_singleton in Hin. congruence.
    + intros j it w Hj Hwj Hfin.
      apply list_lookup_insert_Some in Hwj as [(-> & <- & _)|[Hne Hwj]].
      * eapply Hf; [exact Hj | exact Heqo | left; reflexivity].
      * eauto.
  - (* LNode *)
    step_cases Hs; subst. fields.
    + live_field Heqo.
    + done_field Hd Heqo.
    + armed_field Ha Heqo.
    + intros j it w Hj Hwj Hfin.
      apply list_lookup_insert_Some in Hwj as [(-> & <- & _)|[Hne Hwj]].
      * destruct Hfin; discriminate.
      * eauto.
  - (* LDone *)
    step_cases Hs; subst.
    all: simpl in *.
    all: inversion Hd as [|? ? Hn0 Hrest]; subst.
    all: apply NoDup_cons in Hn as [Hnotin Hn].
    all: pose proof (exited_bounds (workers s)) as Hb.
    all: rewrite (int_decr_live _ (Z.of_nat (length (iters (crw s))))) in *
           by lia.
    all: fields; try lia; try discriminate.
    all: intros Ht.
    1,2: apply Nat.eqb_eq in Heqb as ->; apply Z.ltb_lt in Heqb0;
      repeat split; assumption.
    all: destruct (Ha Ht) as (? & ? & Hni); repeat split; [done | done |];
      intros Hin; apply Hni; by apply list_elem_of_further.
  - (* LTimeout *)
    step_cases Hs; subst. fields.
  - (* LStatus *)
    step_cases Hs; subst. fields.
  - (* LCloseSignal *)
    step_cases Hs; subst. fields.
    intros; by left.
  - (* LCloseIter *)
    step_cases Hs; subst.
    + fields.
      * intros j it Hj Hlt.
        apply list_lookup_insert_Some in Hj as [(-> & <- & _)|[Hne Hj]];
          [reflexivity|].
        apply (Hic j it Hj). simpl.
        apply Nat.ltb_lt in Hlt. apply Nat.ltb_lt. lia.
      * intros j it w Hj Hwj Hfin. left. rewrite Hc. reflexivity.
    + fields.
      intros j it Hj _. apply (Hic j it Hj). simpl.
      apply lookup_lt_Some in Hj. apply lookup_ge_None in Heqo.
      apply Nat.ltb_lt. lia.
  - (* LDrain *)
    step_cases Hs; subst.
    simpl in *.
    inversion Hd as [|? ? Hn0 Hrest]; subst.
    apply NoDup_cons in Hn as [Hnotin Hn].
    pose proof (exited_bounds (workers s)) as Hb.
    apply Z.ltb_lt in Heqb.
    rewrite (int_decr_live _ (Z.of_nat (length (iters (crw s))))) in *
      by lia.
    fields; try lia; try discriminate.
    intros Ht. destruct (Ha Ht) as (? & ? & Hni); repeat split; [done | done |].
    intros Hin; apply Hni; by apply list_elem_of_further.
  - (* LReturn *)
    step_cases Hs; subst. fields.
    intros _. by apply Z.ltb_ge.
  - (* LWait *)
    step_cases Hs; subst. fields.
Qed.

Lemma exec_consistent c w T t0 ls s :
  Z.of_nat (length (iters c)) < 2 ^ 63 ->
  exec ls (run_init c w T t0) = Some s ->
  consistent s.
Proof.
  intros Hb. apply exec_ind.
  - by apply run_init_consistent.
  - intros l s1 s2. apply step_consistent.
Qed.

(** What no step changes, and the direction of time. *)
Lemma step_constants l s s' :
  step l s = Some s' ->
  timeout s' = timeout s /\ started s' = started s /\
  inputIter (crw s') = inputIter (crw s) /\
  length (iters (crw s')) = length (iters (crw s)) /\
  mono s <= mono s'.
Proof.
  intros Hs. destruct l; step_cases Hs; simpl;
    rewrite ?length_insert, ?updateNode_iters, ?updateNode_inputIter;
    repeat split; lia.
Qed.

Lemma exec_constants ls s0 s :
  exec ls s0 = Some s ->
  timeout s = timeout s0 /\ started s = started s0 /\
  inputIter (crw s) = inputIter (crw s0) /\
  length (iters (crw s)) = length (iters (crw s0)) /\
  mono s0 <= mono s.
Proof.
  apply (exec_ind (fun s =>
    timeout s = timeout s0 /\ started s = started s0 /\
    inputIter (crw s) = inputIter (crw s0) /\
    length (iters (crw s)) = length (iters (crw s0)) /\
    mono s0 <= mono s)).
  - repeat split; lia.
  - intros l s1 s2 (H1 & H2 & H3 & H4 & H5) Hs.
    destruct (step_constants _ _ _ Hs) as (G1 & G2 & G3 & G4 & G5).
    repeat split; try congruence; lia.
Qed.

(** When the counter reaches zero every goroutine has returned and every
    notification has been received. *)
Lemma consistent_zero s :
  consistent s -> liveIters s <= 0 ->
  liveIters s = 0 /\ doneCh s = [] /\ Forall (fun w => w = WExit) (workers s).
Proof.
  intros [Hw Hi Hl Hle Hd Hn Ha Hc Hic Hr Hf] Hz.
  pose proof (exited_bounds (workers s)) as Hb.
  assert (Hlen : length (doneCh s) = 0%nat) by lia.
  repeat split.
  - lia.
  - by apply length_zero_iff_nil.
  - apply exited_all. lia.
Qed.

(** With [timeout <= 0] the variable [timeoutCh] stays nil, and the loop
    is only left with every goroutine returned. *)
Lemma step_untimed l s s' :
  consistent s -> untimed s -> step l s = Some s' -> untimed s'.
Proof.
  intros Hcs (HT & Hch & Hex) Hs.
  pose proof (step_consistent _ _ _ Hcs Hs) as Hcs'.
  destruct (step_constants _ _ _ Hs) as (HT' & _).
  assert (Hch' : timeoutCh s' = false).
  { destruct l; step_cases Hs; simpl; try assumption.
    all: match goal with
         | H : (0 <? timeout _) = true |- _ =>
             apply Z.ltb_lt in H; exfalso; lia
         end. }
  split; [lia|]. split; [exact Hch'|].
  intros Hpc.
  destruct (decide (pc s = PLoop)) as [Hloop|Hout].
  - (* the step leaves the loop *)
    assert (Hz : liveIters s' = 0 /\ closed s' = false).
    { destruct Hcs as [_ _ _ _ _ _ _ Hc _ _ _]. rewrite Hloop in Hc.
      destruct l; step_cases Hs; simpl in *; try congruence.
      all: match goal with
           | H : (_ =? 0) = true |- _ => apply Z.eqb_eq in H; by split
           | H : (timeoutCh _ && _) = true |- _ =>
               rewrite Hch in H; discriminate H
           end. }
    destruct Hz as [Hz Hcl].
    destruct (consistent_zero s' Hcs') as (H0 & Hd0 & Hall); [lia|].
    repeat split; try assumption.
    apply Forall_lookup. intros i it Hit.
    destruct Hcs' as [Hw _ _ _ _ _ _ _ _ _ Hf].
    destruct (lookup_lt_is_Some_2 (workers s') i) as [wk Hwk].
    { rewrite Hw. by eapply lookup_lt_Some. }
    rewrite Forall_lookup in Hall. pose proof (Hall _ _ Hwk) as ->.
    destruct (Hf i it WExit Hit Hwk) as [?|?]; [by right | congruence | done].
  - (* the loop was left before *)
    destruct (Hex Hout) as (H0 & Hd0 & Hall & Hits).
    pose proof Hall as Hall'. rewrite Forall_lookup in Hall'.
    unfold all_exhausted.
    destruct l; step_cases Hs; simpl in *; try congruence.
    all: try (match goal with
              | H : workers _ !! _ = Some _ |- _ =>
                  pose proof (Hall' _ _ H); discriminate
              end).
    all: repeat split; try assumption.
    apply Forall_insert; [assumption|].
    rewrite Forall_lookup in Hits. apply exhausted_Close. eauto.
Qed.

Lemma exec_invariants c w T t0 ls s :
  Z.of_nat (length (iters c)) < 2 ^ 63 ->
  T <= 0 ->
  exec ls (run_init c w T t0) = Some s ->
  consistent s /\ untimed s.
Proof.
  intros Hb HT. apply (exec_ind (fun s => consistent s /\ untimed s)).
  - split; [by apply run_init_consistent|].
    split; [exact HT|]. split; [reflexivity|]. simpl. congruence.
  - intros l s1 s2 [Hc Hu] Hs. split.
    + by eapply step_consistent.
    + by eapply step_untimed.
Qed.

(** Before the shutdown sequence [run] closes no iterator. *)
Lemma step_not_closed l s s' :
  step l s = Some s' ->
  (signalled (pc s) = false ->
   Forall (fun it => it_closed it = false) (iters (crw s))) ->
  signalled (pc s') = false ->
  Forall (fun it => it_closed it = false) (iters (crw s')).
Proof.
  intros Hs Hinv Hpc.
  destruct l; step_cases Hs; simpl in *;
    rewrite ?updateNode_iters; try discriminate Hpc;
    try (apply Hinv; first [assumption | by rewrite ?Heqp]).
  all: specialize (Hinv Hpc).
  all: apply Forall_insert; [assumption|].
  all: match goal with
       | H : iterator_Next _ = _ |- _ =>
           rewrite (iterator_Next_closed _ _ _ H)
       end.
  all: rewrite Forall_lookup in Hinv; eauto.
Qed.

Lemma exec_not_closed c w T t0 ls s :
  Forall (fun it => it_closed it = false) (iters c) ->
  exec ls (run_init c w T t0) = Some s ->
  signalled (pc s) = false ->
  Forall (fun it => it_closed it = false) (iters (crw s)).
Proof.
  intros Hc.
  apply (exec_ind (fun s => signalled (pc s) = false ->
                            Forall (fun it => it_closed it = false)
                              (iters (crw s)))).
  - intros _. exact Hc.
  - intros l s1 s2 H1 Hs. by eapply step_not_closed.
Qed.

Lemma exhausted_open it :
  exhausted it -> it_closed it = false -> items it (pos it) = None.
Proof.
  unfold exhausted, iterator_Next. intros H Hc. rewrite Hc in H.
  by destruct (items it (pos it)).
Qed.

(** ** The claims about [run] *)

(** The loop arms the timeout when it receives the notification of the
    replay iterator. *)
Lemma step_arms l s s' :
  consistent s -> arms s -> step l s = Some s' -> arms s'.
Proof.
  intros [Hw Hi Hl Hle Hd Hn Ha Hc Hic Hr Hf] Harm Hs.
  unfold arms in *.
  destruct l; step_cases Hs; simpl in *;
    rewrite ?updateNode_inputIter; try discriminate.
  - (* LNext, an element *)
    intros Hpc HT Hex Hni. apply Harm; try assumption.
    destruct (decide (i = inputIter (crw s))) as [->|Hne].
    + rewrite list_lookup_insert_eq in Hex by (by eapply lookup_lt_Some).
      discriminate.
    + by rewrite list_lookup_insert_ne in Hex.
  - (* LNext, exhausted *)
    intros Hpc HT Hex Hni. apply Harm; try assumption.
    destruct (decide (i = inputIter (crw s))) as [->|Hne].
    + rewrite list_lookup_insert_eq in Hex by (by eapply lookup_lt_Some).
      discriminate.
    + by rewrite list_lookup_insert_ne in Hex.
  - (* LAbort *)
    intros Hpc HT Hex Hni. apply Harm; try assumption.
    destruct (decide (i = inputIter (crw s))) as [->|Hne].
    + rewrite list_lookup_insert_eq in Hex by (by eapply lookup_lt_Some).
      discriminate.
    + by rewrite list_lookup_insert_ne in Hex.
  - (* LNotify *)
    intros Hpc HT Hex Hni.
    destruct (decide (i = inputIter (crw s))) as [->|Hne].
    + exfalso. apply Hni. apply elem_of_app. right.
      by apply list_elem_of_singleton.
    + apply Harm; try assumption.
      * by rewrite list_lookup_insert_ne in Hex.
      * intros Hin. apply Hni. apply elem_of_app. by left.
  - (* LNode *)
    intros Hpc HT Hex Hni. apply Harm; try assumption.
    destruct (decide (i = inputIter (crw s))) as [->|Hne].
    + rewrite list_lookup_insert_eq in Hex by (by eapply lookup_lt_Some).
      discriminate.
    + by rewrite list_lookup_insert_ne in Hex.
  - (* LDone: the notification of the replay iterator, [T > 0] *)
    reflexivity.
  - (* LDone: the notification of the replay iterator, [T <= 0] *)
    intros Hpc HT. apply Z.ltb_ge in Heqb0. lia.
  - (* LDone: the notification of another iterator *)
    intros Hpc HT Hex Hni. apply Harm; try assumption.
    apply Nat.eqb_neq in Heqb. intros Hin.
    apply elem_of_cons in Hin as [Heq|Hin]; [congruence | done].
  - (* LStatus *)
    exact Harm.
  - (* LWait *)
    exact Harm.
Qed.

Lemma exec_arms c w T t0 ls s :
  Z.of_nat (length (iters c)) < 2 ^ 63 ->
  exec ls (run_init c w T t0) = Some s ->
  consistent s /\ arms s.
Proof.
  intros Hb.
  apply (exec_ind (fun s => consistent s /\ arms s)).
  - split; [by apply run_init_consistent|].
    intros _ _ Hex _. simpl in Hex.
    apply lookup_replicate in Hex as [? _]. discriminate.
  - intros l s1 s2 [Hc Ha] Hs. split.
    + by eapply step_consistent.
    + by eapply step_arms.
Qed.

(** C7, as amended: the timer of [run(T)] runs from the entry of [run], at
    time [t0]; the loop listens to it, for [T > 0], from the moment it
    receives the notification of the replay iterator. In the loop
    [timeoutCh] is set exactly when [T > 0] and that notification has been
    received; the timeout branch can be taken exactly when [timeoutCh] is
    set and [T] has elapsed since the entry of [run]. So when the
    notification of the replay iterator is received after more than [T],
    the loop can leave through the timeout branch at once, with no further
    countdown. *)
Theorem timeout_gating c w T t0 ls s :
  Z.of_nat (length (iters c)) < 2 ^ 63 ->
  exec ls (run_init c w T t0) = Some s ->
  (timeoutCh s = true ->
   0 < T /\ workers s !! inputIter c = Some WExit /\ inputIter c ∉ doneCh s) /\
  (pc s = PLoop ->
   0 < T ->
   workers s !! inputIter c = Some WExit ->
   inputIter c ∉ doneCh s ->
   timeoutCh s = true) /\
  (is_Some (step LTimeout s) <->
   pc s = PLoop /\ timeoutCh s = true /\ t0 + T <= mono s) /\
  (forall s', step LTimeout s = Some s' -> s' = with_pc PClose s) /\
  (forall rest,
     pc s = PLoop -> doneCh s = inputIter c :: rest -> 0 < T ->
     exists s',
       step LDone s = Some s' /\
       timeoutCh s' = true /\
       mono s' = mono s /\
       (pc s' = PLoop <-> liveIters s <> 1) /\
       (pc s' = PLoop -> t0 + T <= mono s ->
        step LTimeout s' = Some (with_pc PClose s'))).
Proof.
  intros Hb He.
  destruct (exec_arms _ _ _ _ _ _ Hb He) as [Hcs Harm].
  destruct (exec_constants _ _ _ He) as (HT & Hst & Hin & _ & _).
  simpl in HT, Hst, Hin.
  split; [|split; [|split; [|split]]].
  - intros Ht. destruct Hcs as [_ _ _ _ _ _ Ha _ _ _ _].
    rewrite <- HT, <- Hin. by apply Ha.
  - unfold arms in Harm. rewrite HT, Hin in Harm. exact Harm.
  - unfold step, timer_fired. rewrite HT, Hst. split.
    + intros [s' Hs'].
      destruct (pc s); try discriminate.
      destruct (timeoutCh s); try discriminate.
      destruct (t0 + T <=? mono s) eqn:Hle; try discriminate.
      apply Z.leb_le in Hle. auto.
    + intros (-> & -> & Hle). apply Z.leb_le in Hle. rewrite Hle. eauto.
  - unfold step. intros s'. destruct (pc s); try discriminate.
    destruct (_ && _); [|discriminate]. by intros [= <-].
  - intros rest Hpc Hdone HTpos.
    destruct Hcs as [Hw Hi Hl Hle Hd Hn _ _ _ _ _].
    pose proof (exited_bounds (workers s)) as Hbd.
    rewrite Hdone in Hl. simpl in Hl.
    assert (Hdec : int_wrap (liveIters s - 1) = liveIters s - 1).
    { apply (int_decr_live _ (Z.of_nat (length (iters (crw s))))); lia. }
    assert (HTb : (0 <? timeout s) = true) by (apply Z.ltb_lt; lia).
    eexists. split.
    { unfold step. rewrite Hpc, Hdone. cbv zeta.
      rewrite Hin, Nat.eqb_refl, HTb, Hdec. reflexivity. }
    simpl. split; [reflexivity|]. split; [reflexivity|]. split.
    + destruct (liveIters s - 1 =? 0) eqn:Hz.
      * apply Z.eqb_eq in Hz. split; [discriminate | lia].
      * apply Z.eqb_neq in Hz. split; [lia | reflexivity].
    + intros Hloop Hle'. unfold step. simpl. rewrite Hloop.
      unfold timer_fired. simpl.
      rewrite Hst, HT. apply Z.leb_le in Hle'. rewrite Hle'. reflexivity.
Qed.

(** C8: in [run(timeout)] with [timeout <= 0] the timeout branch is never
    enabled; the loop is left only by the branch that receives a
    notification, when the counter reaches zero, and then every goroutine
    has returned because its iterator was exhausted: [c.closed] is still
    open, and an iterator that was open at the entry of [run] is still open
    and has no element left. *)
Theorem untimed_run_exits_on_exhaustion c w T t0 ls s :
  Z.of_nat (length (iters c)) < 2 ^ 63 ->
  T <= 0 ->
  exec ls (run_init c w T t0) = Some s ->
  timeoutCh s = false /\
  step LTimeout s = None /\
  (pc s <> PLoop -> all_exhausted s) /\
  (forall l s', step l s = Some s' -> pc s = PLoop -> pc s' <> PLoop ->
     l = LDone /\ liveIters s' = 0 /\ closed s' = false) /\
  (Forall (fun it => it_closed it = false) (iters c) ->
   pc s = PClose ->
   Forall (fun it => it_closed it = false /\ items it (pos it) = None)
     (iters (crw s))).
Proof.
  intros Hb HT He.
  destruct (exec_invariants _ _ _ _ _ _ Hb HT He) as [Hcs (HT' & Hch & Hex)].
  split; [exact Hch|]. split; [|split; [exact Hex|split]].
  - unfold step. rewrite Hch. by destruct (pc s).
  - intros l s' Hs Hloop Hout.
    destruct Hcs as [_ _ _ _ _ _ _ Hc _ _ _]. rewrite Hloop in Hc.
    destruct l; step_cases Hs; simpl in *; try congruence.
    all: match goal with
         | H : (_ =? 0) = true |- _ => apply Z.eqb_eq in H; by repeat split
         | H : (timeoutCh _ && _) = true |- _ =>
             rewrite Hch in H; discriminate H
         end.
  - intros Hopen Hpc.
    assert (Hsig : signalled (pc s) = false) by (by rewrite Hpc).
    pose proof (exec_not_closed _ _ _ _ _ _ Hopen He Hsig) as Hno.
    destruct Hex as (_ & _ & _ & Hexh); [congruence|].
    rewrite Forall_lookup in Hno, Hexh. apply Forall_lookup.
    intros i it Hit. split; [eauto|].
    apply exhausted_open; eauto.
Qed.

(** C9: however the loop was left, when [run] returns [c.closed] has been
    closed, every iterator has been closed, every notification has been
    received and every goroutine has returned. *)
Theorem run_leaves_no_worker c w T t0 ls s :
  Z.of_nat (length (iters c)) < 2 ^ 63 ->
  exec ls (run_init c w T t0) = Some s ->
  pc s = PReturned ->
  closed s = true /\
  Forall (fun it => it_closed it = true) (iters (crw s)) /\
  length (workers s) = length (iters c) /\
  Forall (fun w => w = WExit) (workers s) /\
  doneCh s = [] /\
  liveIters s = 0.
Proof.
  intros Hb He Hpc.
  pose proof (exec_consistent _ _ _ _ _ _ Hb He) as Hcs.
  destruct (exec_constants _ _ _ He) as (_ & _ & _ & Hlen & _).
  simpl in Hlen.
  destruct (consistent_zero s Hcs) as (Hz & Hd & Hall).
  { destruct Hcs. auto. }
  destruct Hcs as [Hw _ _ _ _ _ _ Hc Hic _ _].
  rewrite Hpc in Hc, Hic. simpl in Hc, Hic.
  repeat split; try assumption; try congruence.
  apply Forall_lookup. intros i it Hit. by eapply Hic.
Qed.

(** ** The shutdown sequence never blocks *)

Lemma first_live_Some ws i :
  first_live ws = Some i -> exists w, ws !! i = Some w /\ is_exit w = false.
Proof.
  revert i. induction ws as [|x ws IH]; intros i; simpl; [done|].
  destruct (is_exit x) eqn:Hx.
  - destruct (first_live ws) as [j|]; simpl; [|done].
    intros [= <-]. apply IH. reflexivity.
  - intros [= <-]. eauto.
Qed.

Lemma first_live_None ws :
  first_live ws = None -> exited ws = Z.of_nat (length ws).
Proof.
  induction ws as [|x ws IH]; simpl; [done|].
  destruct (is_exit x); [|done].
  destruct (first_live ws); simpl; [done|]. intros _. rewrite IH by done. lia.
Qed.

Lemma exited_lt ws i w :
  ws !! i = Some w -> is_exit w = false -> exited ws < Z.of_nat (length ws).
Proof.
  revert i. induction ws as [|x ws IH]; intros [|i] H Hw; simpl in *; try done.
  - injection H as ->. rewrite Hw. pose proof (exited_bounds ws). lia.
  - specialize (IH _ H Hw). destruct (is_exit x); lia.
Qed.

Lemma work_insert ws i w w' :
  ws !! i = Some w ->
  (work (<[i := w']> ws) + worker_rank w = work ws + worker_rank w')%nat.
Proof.
  revert i. induction ws as [|x ws IH]; intros [|i] H; simpl in *; try done.
  - injection H as ->. lia.
  - specialize (IH _ H). lia.
Qed.

(** After the loop, [run] or one of the goroutines can always take a step
    that brings the return of [run] nearer. *)
Lemma shutdown_progress s :
  consistent s -> pc s <> PLoop -> pc s <> PReturned ->
  exists l s',
    step l s = Some s' /\ pc s' <> PLoop /\ (remaining s' < remaining s)%nat.
Proof.
  intros Hcs Hl Hr.
  pose proof Hcs as [Hw Hi Hlive Hle Hd Hn Ha Hc Hic _ Hf].
  destruct (pc s) as [| |k| |] eqn:Hpc; try done.
  - (* PClose *)
    exists LCloseSignal. eexists. unfold step. rewrite Hpc.
    split; [reflexivity|]. split; [done|].
    unfold remaining; simpl. rewrite Hpc. simpl. lia.
  - (* PCloseIters *)
    exists LCloseIter. unfold step. rewrite Hpc.
    destruct (iters (crw s) !! k) as [it|] eqn:Hit.
    + eexists. split; [reflexivity|]. split; [done|].
      unfold remaining; simpl. rewrite length_insert, Hpc. simpl.
      apply lookup_lt_Some in Hit. lia.
    + eexists. split; [reflexivity|]. split; [done|].
      unfold remaining; simpl. rewrite Hpc. simpl. lia.
  - (* PDrain *)
    simpl in Hc.
    destruct (first_live (workers s)) as [i|] eqn:Hfl.
    + apply first_live_Some in Hfl as (w & Hwi & Hne).
      destruct w; try discriminate Hne.
      * (* in Next: the iterator is closed *)
        destruct (lookup_lt_is_Some_2 (iters (crw s)) i) as [it Hit].
        { rewrite <- Hw. by eapply lookup_lt_Some. }
        assert (Hcl : it_closed it = true) by (by eapply Hic).
        exists (LNext i). unfold step. rewrite Hwi, Hit.
        unfold iterator_Next. rewrite Hcl. eexists.
        split; [reflexivity|]. split; [simpl; congruence|].
        unfold remaining; simpl. rewrite length_insert, Hpc. simpl.
        pose proof (work_insert _ _ _ WDefer Hwi). simpl in *. lia.
      * (* in the select: [c.closed] is closed *)
        exists (LAbort i). unfold step. rewrite Hwi, Hc. eexists.
        split; [reflexivity|]. split; [simpl; congruence|].
        unfold remaining; simpl. rewrite Hpc. simpl.
        pose proof (work_insert _ _ _ WDefer Hwi). simpl in *. lia.
      * (* the notification fits into the buffer *)
        exists (LNotify i). unfold step. rewrite Hwi.
        pose proof (exited_lt _ _ _ Hwi eq_refl) as Hlt.
        assert (Hroom : (length (doneCh s) <? length (iters (crw s)))%nat = true).
        { apply Nat.ltb_lt. lia. }
        rewrite Hroom. eexists.
        split; [reflexivity|]. split; [simpl; congruence|].
        unfold remaining; simpl. rewrite Hpc. simpl.
        pose proof (work_insert _ _ _ WExit Hwi). simpl in *. lia.
    + apply first_live_None in Hfl.
      destruct (doneCh s) as [|j rest] eqn:Hdone.
      * exists LReturn. unfold step. rewrite Hpc.
        assert (Hz : (0 <? liveIters s) = false).
        { apply Z.ltb_ge. simpl in Hlive. lia. }
        rewrite Hz. eexists. split; [reflexivity|]. split; [done|].
        unfold remaining; simpl. rewrite Hpc. simpl. lia.
      * exists LDrain. unfold step. rewrite Hpc, Hdone.
        simpl in Hlive.
        assert (Hz : (0 <? liveIters s) = true) by (apply Z.ltb_lt; lia).
        rewrite Hz. eexists. split; [reflexivity|]. split; [simpl; congruence|].
        unfold remaining; simpl. rewrite Hpc. simpl.
        rewrite (int_decr_live _ (Z.of_nat (length (iters (crw s))))) by lia.
        simpl. lia.
Qed.

(** However the loop was left, [run] can return: the shutdown sequence
    never blocks. *)
Lemma shutdown_completes s :
  consistent s -> pc s <> PLoop ->
  exists ls s', exec ls s = Some s' /\ pc s' = PReturned.
Proof.
  remember (remaining s) as m eqn:Hm.
  revert s Hm. induction m as [m IH] using lt_wf_ind. intros s -> Hcs Hl.
  destruct (decide (pc s = PReturned)) as [Hr|Hr].
  - exists [], s. by split.
  - destruct (shutdown_progress s Hcs Hl Hr) as (l & s1 & Hs & Hl1 & Hlt).
    destruct (IH _ Hlt s1 eq_refl) as (ls & s2 & He & Hp); [|done|].
    + by eapply step_consistent.
    + exists (l :: ls), s2. simpl. rewrite Hs. by split.
Qed.

Lemma run_can_return c w T t0 ls s :
  Z.of_nat (length (iters c)) < 2 ^ 63 ->
  exec ls (run_init c w T t0) = Some s ->
  pc s <> PLoop ->
  exists ls' s',
    exec (ls ++ ls') (run_init c w T t0) = Some s' /\ pc s' = PReturned.
Proof.
  intros Hb He Hl.
  destruct (shutdown_completes s) as (ls' & s' & He' & Hp);
    [by eapply exec_consistent | done |].
  exists ls', s'. rewrite exec_app, He. by split.
Qed.

(** ** The claims about [run] on sample executions *)

Import SampleRun.

(** C7, as stated, fails: in [run(5s)] the replay of the input set takes
    ten seconds. When the loop receives the notification of the replay
    iterator it starts to listen to the timer, which fired five seconds
    before: the loop can leave through the timeout branch at once, and
    [run] returns ten seconds after its entry, not fifteen. *)
Lemma timeout_fires_right_after_replay :
  view <$> exec slow_replay gated_run = Some (seconds 10, false, PLoop) /\
  view <$> exec (slow_replay ++ [LDone]) gated_run
  = Some (seconds 10, true, PLoop) /\
  view <$> exec (slow_replay ++ [LDone; LTimeout]) gated_run
  = Some (seconds 10, true, PClose) /\
  view <$> exec (slow_replay ++ [LDone; LTimeout] ++ shutdown) gated_run
  = Some (seconds 10, true, PReturned) /\
  seconds 10 < seconds 10 + seconds 5.
Proof. vm_compute. repeat split. Qed.

Lemma timeout_gating_witness :
  let s := after slow_replay gated_run in
  (pc s = PLoop /\ doneCh s = [inputIter gated] /\ timeoutCh s = false /\
   liveIters s = 2 /\ 0 + seconds 5 <= mono s) /\
  (timeoutCh s = true ->
   0 < seconds 5 /\
   workers s !! inputIter gated = Some WExit /\
   inputIter gated ∉ doneCh s) /\
  (pc s = PLoop ->
   0 < seconds 5 ->
   workers s !! inputIter gated = Some WExit ->
   inputIter gated ∉ doneCh s ->
   timeoutCh s = true) /\
  (is_Some (step LTimeout s) <->
   pc s = PLoop /\ timeoutCh s = true /\ 0 + seconds 5 <= mono s) /\
  (forall s', step LTimeout s = Some s' -> s' = with_pc PClose s) /\
  (forall rest,
     pc s = PLoop -> doneCh s = inputIter gated :: rest -> 0 < seconds 5 ->
     exists s',
       step LDone s = Some s' /\
       timeoutCh s' = true /\
       mono s' = mono s /\
       (pc s' = PLoop <-> liveIters s <> 1) /\
       (pc s' = PLoop -> 0 + seconds 5 <= mono s ->
        step LTimeout s' = Some (with_pc PClose s'))).
Proof.
  cbv zeta. split.
  - vm_compute. repeat split; discriminate.
  - apply (timeout_gating gated unreachable (seconds 5) 0 slow_replay).
    + vm_compute. reflexivity.
    + apply exec_after. vm_compute. reflexivity.
Defined.

Lemma untimed_run_exits_on_exhaustion_witness :
  let s := after replay replay_only in
  timeoutCh s = false /\
  step LTimeout s = None /\
  (pc s <> PLoop -> all_exhausted s) /\
  (forall l s', step l s = Some s' -> pc s = PLoop -> pc s' <> PLoop ->
     l = LDone /\ liveIters s' = 0 /\ closed s' = false) /\
  (Forall (fun it => it_closed it = false)
     (iters (crawl (minutes 10) {[7%N := seed 4]})) ->
   pc s = PClose ->
   Forall (fun it => it_closed it = false /\ items it (pos it) = None)
     (iters (crw s))).
Proof.
  apply (untimed_run_exits_on_exhaustion
           (crawl (minutes 10) {[7%N := seed 4]}) unreachable 0 0 replay).
  - vm_compute. reflexivity.
  - vm_compute. discriminate.
  - apply exec_after. vm_compute. reflexivity.
Defined.

Lemma run_leaves_no_worker_witness :
  let s := after (slow_replay ++ [LDone; LTimeout] ++ shutdown) gated_run in
  closed s = true /\
  Forall (fun it => it_closed it = true) (iters (crw s)) /\
  length (workers s) = length (iters gated) /\
  Forall (fun w => w = WExit) (workers s) /\
  doneCh s = [] /\
  liveIters s = 0.
Proof.
  apply (run_leaves_no_worker gated unreachable (seconds 5) 0
           (slow_replay ++ [LDone; LTimeout] ++ shutdown)).
  - vm_compute. reflexivity.
  - apply exec_after. vm_compute. reflexivity.
  - vm_compute. reflexivity.
Defined.

(** * Further properties *)

(** ** More about [updateNode] *)

(** The world after a call. *)
Lemma updateNode_world n c w :
  let w' := world_of (updateNode n c w) in
  clock w' = clock w /\ enr w' = enr w /\
  requests w' = (if recently_seen n c w then requests w else requests w ++ [n]) /\
  ticks w' =
    (ticks w + (match output c !! Node_ID n with Some _ => 1 | None => 0 end)
     + (if recently_seen n c w then 0 else 1))%nat.
Proof.
  unfold recently_seen. run_update.
  destruct (output c !! Node_ID n) as [r|]; simpl.
  - destruct (_ <? _); simpl; [repeat split; lia|].
    repeat (match goal with
            | |- context [match ?b with _ => _ end] => destruct b; simpl
            end); repeat split; lia.
  - repeat (match goal with
            | |- context [match ?b with _ => _ end] => destruct b; simpl
            end); repeat split; lia.
Qed.

Lemma updateNode_recent_iff n c w :
  result (updateNode n c w) = nodeSkipRecent <-> recently_seen n c w = true.
Proof.
  destruct (recent_or_not n c w) as [(r & Hr & Hlt)|Hnr].
  - rewrite (updateNode_recent _ _ _ _ Hr Hlt).
    unfold recently_seen. rewrite Hr. apply Z.ltb_lt in Hlt. by rewrite Hlt.
  - unfold not_recent in Hnr. rewrite Hnr. split; [|discriminate].
    destruct (resolution n w) as [nn|] eqn:Hres.
    + destruct (updateNode_success n c w nn Hnr Hres) as (-> & _).
      repeat (match goal with
              | |- context [match ?b with _ => _ end] => destruct b
              end); discriminate.
    + destruct (updateNode_failure n c w (conj Hnr Hres)) as (-> & _).
      repeat (match goal with
              | |- context [match ?b with _ => _ end] => destruct b
              end); discriminate.
Qed.

Lemma updateNode_others n c w :
  let c' := crawler_of (updateNode n c w) in
  input c' = input c /\ iters c' = iters c /\ inputIter c' = inputIter c /\
  revalidateInterval c' = revalidateInterval c /\
  forall id, id <> Node_ID n -> output c' !! id = output c !! id.
Proof.
  cbv zeta. rewrite updateNode_frame. repeat split.
  intros id Hid. simpl.
  pose proof (updateNode_output_cases n c w) as H. cbv zeta in H.
  destruct (result (updateNode n c w)).
  - rewrite H. apply lookup_delete_ne. congruence.
  - by rewrite H.
  - by rewrite H.
  - destruct H as (node & _ & ->). apply lookup_insert_ne. congruence.
  - destruct H as (node & _ & ->). apply lookup_insert_ne. congruence.
Qed.

(** X1: a call of [updateNode] writes at most the record of its candidate:
    the records of all other identities, the input set, the iterators and
    the revalidation interval are as before. *)
Theorem updateNode_touches_one_record n c w :
  let c' := crawler_of (updateNode n c w) in
  input c' = input c /\ iters c' = iters c /\ inputIter c' = inputIter c /\
  revalidateInterval c' = revalidateInterval c /\
  forall id, id <> Node_ID n -> output c' !! id = output c !! id.
Proof. apply updateNode_others. Qed.

Lemma updateNode_dom_cases n c w :
  let c' := crawler_of (updateNode n c w) in
  match result (updateNode n c w) with
  | nodeRemoved =>
      Node_ID n ∈ dom (output c) /\
      dom (output c') = dom (output c) ∖ {[Node_ID n]}
  | nodeUpdated =>
      Node_ID n ∈ dom (output c) /\ dom (output c') = dom (output c)
  | nodeAdded => dom (output c') = {[Node_ID n]} ∪ dom (output c)
  | nodeSkipRecent | nodeSkipIncompat => c' = c
  end.
Proof.
  cbv zeta.
  destruct (recent_or_not n c w) as [(r & Hr & Hlt)|Hnr].
  { by rewrite (updateNode_recent _ _ _ _ Hr Hlt). }
  destruct (resolution n w) as [nn|] eqn:Hres.
  - destruct (updateNode_success n c w nn Hnr Hres) as (Hst & Hout & _).
    rewrite Hst, Hout. unfold current in *.
    destruct (output c !! Node_ID n) as [r|] eqn:Hr; simpl.
    + assert (Hin : Node_ID n ∈ dom (output c)) by (apply elem_of_dom; eauto).
      destruct (int_incr (Score r) <=? 0).
      * split; [done|]. apply dom_delete_L.
      * destruct (IsZero (FirstResponse r)).
        -- apply dom_insert_L.
        -- split; [done|]. apply dom_insert_lookup_L. eauto.
    + change (int_incr 0 <=? 0) with false. simpl. apply dom_insert_L.
  - destruct (Z.eq_dec (Score (current n c)) 0) as [Hz|Hnz].
    + by destruct (updateNode_skip_incompat n c w Hz (conj Hnr Hres)) as [-> ->].
    + destruct (updateNode_failure n c w (conj Hnr Hres)) as (Hst & Hout & _).
      apply Z.eqb_neq in Hnz as Hnz'. rewrite Hst, Hout, Hnz'.
      assert (Hin : Node_ID n ∈ dom (output c)).
      { apply elem_of_dom. unfold current in Hnz.
        destruct (output c !! Node_ID n); [eauto | done]. }
      destruct (int_half (Score (current n c)) <=? 0).
      * split; [done|]. apply dom_delete_L.
      * split; [done|]. apply dom_insert_lookup_L. by apply elem_of_dom.
Qed.

(** X2: the status tells how the set of identities changed. Removed: the
    candidate had a record and lost it. Updated: the candidate had a record
    and the identities are the same. Added: the candidate is in the set
    afterwards. Skipped (recent or incompatible): the crawler is
    unchanged. So only Added can grow the output set, by one identity. *)
Theorem status_tells_identities n c w :
  let c' := crawler_of (updateNode n c w) in
  match result (updateNode n c w) with
  | nodeRemoved =>
      Node_ID n ∈ dom (output c) /\
      dom (output c') = dom (output c) ∖ {[Node_ID n]}
  | nodeUpdated =>
      Node_ID n ∈ dom (output c) /\ dom (output c') = dom (output c)
  | nodeAdded => dom (output c') = {[Node_ID n]} ∪ dom (output c)
  | nodeSkipRecent | nodeSkipIncompat => c' = c
  end.
Proof. apply updateNode_dom_cases. Qed.

(** X3: a call asks the resolver at most once, and for its candidate: the
    request is made exactly when the call is not SkippedRecent. The clock
    is read once for [time.Since] when the candidate has a record, and once
    more for [truncNow] when the resolver is asked. *)
Theorem one_request_per_probe n c w :
  let r := updateNode n c w in
  (result r = nodeSkipRecent <-> recently_seen n c w = true) /\
  requests (world_of r) =
    (if recently_seen n c w then requests w else requests w ++ [n]) /\
  ticks (world_of r) =
    (ticks w + (match output c !! Node_ID n with Some _ => 1 | None => 0 end)
     + (if recently_seen n c w then 0 else 1))%nat.
Proof.
  cbv zeta. split; [apply updateNode_recent_iff|].
  destruct (updateNode_world n c w) as (_ & _ & Hreq & Htick). by split.
Qed.

(** X4: a successful resolution for a candidate that has a record with a
    score in [0, MaxInt): the record is kept with the resolved node and
    sequence number and the score incremented; [LastResponse] and
    [LastCheck] are the truncated current time; [FirstResponse] is kept
    when it was set (status Updated) and set to that time when it was not
    (status Added). *)
Theorem success_on_known_record n c w r nn :
  output c !! Node_ID n = Some r ->
  not_recent n c w ->
  resolution n w = ENROk nn ->
  0 <= Score r < 2 ^ 63 - 1 ->
  let now := check_time n c w in
  result (updateNode n c w)
  = (if IsZero (FirstResponse r) then nodeAdded else nodeUpdated) /\
  output (crawler_of (updateNode n c w)) !! Node_ID n =
    Some {| Seq := Node_Seq nn; N := Some nn; Score := Score r + 1;
            FirstResponse :=
              if IsZero (FirstResponse r) then now else FirstResponse r;
            LastResponse := now; LastCheck := now |}.
Proof.
  intros Hr Hnr Hres Hs.
  destruct (updateNode_success n c w nn Hnr Hres) as (Hst & Hout & _).
  unfold current in Hst, Hout. rewrite Hr in Hst, Hout. simpl in Hst, Hout.
  assert (Hinc : int_incr (Score r) = Score r + 1).
  { apply int_wrap_id. unfold int_range. lia. }
  rewrite Hinc in Hst, Hout.
  assert (Hpos : (Score r + 1 <=? 0) = false) by (apply Z.leb_gt; lia).
  rewrite Hpos in Hst, Hout. cbv zeta. rewrite Hst, Hout.
  split; [reflexivity | apply lookup_insert_eq].
Qed.

(** X5: a successful resolution removes the record of its candidate
    exactly when the incremented score is not positive: when the score was
    negative, or was MaxInt and wraps around. *)
Theorem success_removes_iff n c w nn :
  not_recent n c w ->
  resolution n w = ENROk nn ->
  int_range (Score (current n c)) ->
  (result (updateNode n c w) = nodeRemoved <->
   Score (current n c) < 0 \/ Score (current n c) = 2 ^ 63 - 1) /\
  (result (updateNode n c w) = nodeRemoved ->
   output (crawler_of (updateNode n c w)) !! Node_ID n = None).
Proof.
  intros Hnr Hres Hrange.
  split; [|apply updateNode_removed].
  destruct (updateNode_success n c w nn Hnr Hres) as (-> & _).
  unfold int_range in Hrange.
  destruct (Z.eq_dec (Score (current n c)) (2 ^ 63 - 1)) as [Hmax|Hmax].
  - rewrite Hmax. change (int_incr (2 ^ 63 - 1) <=? 0) with true. tauto.
  - unfold int_incr.
    rewrite (int_wrap_id (Score (current n c) + 1)) by (unfold int_range; lia).
    destruct (Score (current n c) + 1 <=? 0) eqn:Hle.
    + apply Z.leb_le in Hle. split; [intros _; lia | done].
    + apply Z.leb_gt in Hle. split.
      * destruct (IsZero _); discriminate.
      * lia.
Qed.

(** X6: [FirstResponse], once set, is not changed by a call as long as the
    record stays in the output set. *)
Theorem first_response_set_once n c w id r r' :
  output c !! id = Some r ->
  IsZero (FirstResponse r) = false ->
  output (crawler_of (updateNode n c w)) !! id = Some r' ->
  FirstResponse r' = FirstResponse r.
Proof.
  intros Hr Hfr Hr'.
  destruct (decide (id = Node_ID n)) as [->|Hne].
  2: { destruct (updateNode_others n c w) as (_ & _ & _ & _ & H).
       rewrite (H id Hne) in Hr'. congruence. }
  destruct (recent_or_not n c w) as [(r0 & Hr0 & Hlt)|Hnr].
  { rewrite (updateNode_recent _ _ _ _ Hr0 Hlt) in Hr'.
    unfold crawler_of in Hr'. simpl in Hr'. congruence. }
  destruct (resolution n w) as [nn|] eqn:Hres.
  - destruct (updateNode_success n c w nn Hnr Hres) as (_ & Hout & _).
    unfold current in Hout. rewrite Hr in Hout. simpl in Hout.
    rewrite Hfr in Hout. rewrite Hout in Hr'.
    destruct (int_incr (Score r) <=? 0).
    + rewrite lookup_delete_eq in Hr'. discriminate.
    + rewrite lookup_insert_eq in Hr'. by injection Hr' as <-.
  - destruct (updateNode_failure n c w (conj Hnr Hres)) as (_ & Hout & _).
    unfold current in Hout. rewrite Hr in Hout. simpl in Hout.
    rewrite Hout in Hr'.
    destruct (Score r =? 0); [congruence|].
    destruct (int_half (Score r) <=? 0).
    + rewrite lookup_delete_eq in Hr'. discriminate.
    + rewrite lookup_insert_eq in Hr'. by injection Hr' as <-.
Qed.

(** X7: [truncNow] reads the clock once and returns a whole number of
    seconds, not after the reading and less than a second before it. *)
Theorem truncNow_whole_second c w :
  let t := result (truncNow c w) in
  t mod Second = 0 /\
  t <= clock w (ticks w) < t + Second /\
  crawler_of (truncNow c w) = c /\
  ticks (world_of (truncNow c w)) = S (ticks w).
Proof.
  unfold truncNow, time_Now, bind, ret, result, crawler_of, world_of,
    Truncate; simpl.
  change (1 * Second <=? 0) with false. cbv iota.
  change (1 * Second) with Second.
  set (x := clock w (ticks w)).
  assert (Hs : 0 < Second) by reflexivity.
  pose proof (Z.mod_pos_bound x Second Hs) as Hb.
  repeat split; try lia.
  rewrite Zminus_mod, Zmod_mod, Z.sub_diag. reflexivity.
Qed.

(** The record a call keeps carries the time of the call. *)
Lemma kept_record_last_check n c w :
  not_recent n c w ->
  result (updateNode n c w) = nodeAdded \/
  result (updateNode n c w) = nodeUpdated ->
  exists r',
    output (crawler_of (updateNode n c w)) !! Node_ID n = Some r' /\
    LastCheck r' = check_time n c w.
Proof.
  intros Hnr Hst.
  destruct (resolution n w) as [nn|] eqn:Hres.
  - destruct (updateNode_success n c w nn Hnr Hres) as (Hst' & Hout & _).
    rewrite Hst' in Hst. rewrite Hout.
    destruct (int_incr (Score (current n c)) <=? 0).
    + destruct Hst; discriminate.
    + eexists. split; [apply lookup_insert_eq | reflexivity].
  - destruct (updateNode_failure n c w (conj Hnr Hres)) as (Hst' & Hout & _).
    rewrite Hst' in Hst. rewrite Hout.
    destruct (Score (current n c) =? 0); [destruct Hst; discriminate|].
    destruct (int_half (Score (current n c)) <=? 0).
    + destruct Hst; discriminate.
    + eexists. split; [apply lookup_insert_eq | reflexivity].
Qed.

(** X8: two calls for the same candidate. When the first one asked the
    resolver and kept the record, and the clock, read by the second one, is
    less than [revalidateInterval] after the time the first one recorded,
    the second call is SkippedRecent: no request, nothing changed. *)
Theorem second_probe_is_throttled n c w :
  not_recent n c w ->
  result (updateNode n c w) = nodeAdded \/
  result (updateNode n c w) = nodeUpdated ->
  let c1 := crawler_of (updateNode n c w) in
  let w1 := world_of (updateNode n c w) in
  Sub (clock w1 (ticks w1)) (check_time n c w) < revalidateInterval c ->
  result (updateNode n c1 w1) = nodeSkipRecent /\
  crawler_of (updateNode n c1 w1) = c1 /\
  requests (world_of (updateNode n c1 w1)) = requests w1.
Proof.
  intros Hnr Hst c1 w1 Hlt.
  destruct (kept_record_last_check n c w Hnr Hst) as (r' & Hr' & Hlc).
  destruct (updateNode_others n c w) as (_ & _ & _ & Hint & _).
  fold c1 in Hr', Hint. rewrite <- Hlc, <- Hint in Hlt.
  by rewrite (updateNode_recent n c1 w1 r' Hr' Hlt).
Qed.

(** X9: with [revalidateInterval <= 0], the value [newCrawler] leaves, a
    candidate whose record was not checked in the future is never
    SkippedRecent: the resolver is asked. *)
Theorem zero_interval_never_throttles n c w :
  revalidateInterval c <= 0 ->
  (forall r, output c !! Node_ID n = Some r ->
             LastCheck r <= clock w (ticks w)) ->
  result (updateNode n c w) <> nodeSkipRecent /\
  requests (world_of (updateNode n c w)) = requests w ++ [n].
Proof.
  intros Hint Hpast.
  assert (Hnr : recently_seen n c w = false).
  { unfold recently_seen.
    destruct (output c !! Node_ID n) as [r|] eqn:Hr; [|done].
    specialize (Hpast r eq_refl). apply Z.ltb_ge.
    unfold Sub, maxDuration, minDuration.
    repeat (match goal with
            | |- context [if ?b then _ else _] => destruct b eqn:?
            end); lia. }
  split.
  - rewrite updateNode_recent_iff, Hnr. discriminate.
  - destruct (updateNode_world n c w) as (_ & _ & -> & _). by rewrite Hnr.
Qed.

(** X10: [newCrawler] keeps the input set, starts the output set with the
    same record for every identity, and appends the replay iterator to the
    given ones: [inputIter] designates it, the last one, and none of the
    given ones; [revalidateInterval] is left at zero. *)
Theorem newCrawler_state inp its :
  let c := newCrawler inp its in
  input c = inp /\
  (forall id, output c !! id = inp !! id) /\
  iters c = its ++ [IterNodes (nodes inp)] /\
  iters c !! inputIter c = Some (IterNodes (nodes inp)) /\
  length (iters c) = S (length its) /\
  (forall i, (i < length its)%nat -> i <> inputIter c /\ iters c !! i = its !! i) /\
  revalidateInterval c = 0.
Proof.
  cbv zeta. repeat split.
  - intros id. by rewrite newCrawler_output.
  - simpl. rewrite lookup_app_r by reflexivity.
    by rewrite Nat.sub_diag.
  - simpl. rewrite length_app. simpl. lia.
  - simpl. lia.
  - simpl. by apply lookup_app_l.
Qed.

(** X11: over any sequence of [updateNode] calls, the identities of the
    output set are among those it had at the start and those of the
    candidates: its size grows at most by the number of distinct identities
    seen. *)
Theorem history_identities ns c w :
  Forall (fun e : Node * status * nodeSet =>
            let ids : gset ID := list_to_set (Node_ID <$> ns) in
            dom e.2 ⊆ dom (output c) ∪ ids /\
            (size e.2 <= size (output c) + size ids)%nat)
    (history ns c w).
Proof.
  assert (Hsize : forall (m m0 : nodeSet) (X : gset ID),
             dom m ⊆ dom m0 ∪ X -> (size m <= size m0 + size X)%nat).
  { intros m m0 X Hsub. rewrite <- !size_dom.
    etrans; [apply subseteq_size, Hsub|].
    rewrite size_union_alt.
    assert (Hd : X ∖ dom m0 ⊆ X).
    { intros x Hx. by apply elem_of_difference in Hx as [Hx _]. }
    apply subseteq_size in Hd. lia. }
  cut (Forall (fun e : Node * status * nodeSet =>
                 dom e.2 ⊆ dom (output c) ∪ list_to_set (Node_ID <$> ns))
         (history ns c w)).
  { intros H. eapply Forall_impl; [exact H|].
    intros e He. split; [exact He | by apply Hsize]. }
  revert c w. induction ns as [|n ns IH]; intros c w; [constructor|].
  assert (Hstep : dom (output (crawler_of (updateNode n c w)))
                  ⊆ dom (output c) ∪ {[Node_ID n]}).
  { pose proof (updateNode_dom_cases n c w) as H. cbv zeta in H.
    destruct (result (updateNode n c w)).
    - destruct H as [_ ->]. intros x Hx.
      apply elem_of_difference in Hx as [Hx _]. apply elem_of_union. by left.
    - rewrite H. apply union_subseteq_l.
    - rewrite H. apply union_subseteq_l.
    - rewrite H. intros x Hx. apply elem_of_union in Hx.
      apply elem_of_union. tauto.
    - destruct H as [_ ->]. apply union_subseteq_l. }
  rewrite fmap_cons, list_to_set_cons.
  change (history (n :: ns) c w)
    with ((n, result (updateNode n c w), output (crawler_of (updateNode n c w)))
          :: history ns (crawler_of (updateNode n c w))
               (world_of (updateNode n c w))).
  constructor.
  - intros x Hx. simpl in Hx. apply Hstep in Hx.
    apply elem_of_union in Hx as [Hx|Hx]; apply elem_of_union;
      [by left | right; apply elem_of_union; by left].
  - eapply Forall_impl; [apply IH|]. intros e He x Hx.
    apply He, elem_of_union in Hx as [Hx|Hx].
    + apply Hstep in Hx.
      apply elem_of_union in Hx as [Hx|Hx]; apply elem_of_union;
        [by left | right; apply elem_of_union; by left].
    + apply elem_of_union. right. apply elem_of_union. by right.
Qed.

(** ** More about [run] *)

(** In the loop the counter is positive, when there is an iterator at
    all. *)
Lemma step_loop_live l s s' :
  consistent s ->
  (pc s = PLoop -> (0 < length (iters (crw s)))%nat -> 1 <= liveIters s) ->
  step l s = Some s' ->
  pc s' = PLoop -> (0 < length (iters (crw s')))%nat -> 1 <= liveIters s'.
Proof.
  intros Hcs Hinv Hs.
  pose proof (step_consistent _ _ _ Hcs Hs) as Hcs'.
  destruct Hcs as [Hw Hi Hl Hle Hd Hn Ha Hc Hic Hr Hf].
  pose proof (exited_bounds (workers s)) as Hb.
  destruct l; step_cases Hs; simpl in *;
    rewrite ?length_insert, ?updateNode_iters; try discriminate;
    try (intros; apply Hinv; first [assumption | congruence]).
  all: intros _ _.
  all: rewrite (int_decr_live _ (Z.of_nat (length (iters (crw s))))) in *
         by lia.
  all: match goal with
       | H : (_ =? 0) = false |- _ => apply Z.eqb_neq in H
       end; lia.
Qed.

Lemma exec_loop_live c w T t0 ls s :
  Z.of_nat (length (iters c)) < 2 ^ 63 ->
  exec ls (run_init c w T t0) = Some s ->
  consistent s /\
  (pc s = PLoop -> (0 < length (iters (crw s)))%nat -> 1 <= liveIters s).
Proof.
  intros Hb.
  apply (exec_ind (fun s =>
    consistent s /\
    (pc s = PLoop -> (0 < length (iters (crw s)))%nat -> 1 <= liveIters s))).
  - split; [by apply run_init_consistent|]. simpl. lia.
  - intros l s1 s2 [Hc Hl] Hs. split.
    + by eapply step_consistent.
    + by eapply step_loop_live.
Qed.

(** X12: the deferred notification of [runIterator] never blocks: the
    buffer of [doneCh] has room whenever a goroutine is about to send, so
    the goroutine returns. *)
Theorem notification_never_blocks c w T t0 ls s i :
  Z.of_nat (length (iters c)) < 2 ^ 63 ->
  exec ls (run_init c w T t0) = Some s ->
  workers s !! i = Some WDefer ->
  (length (doneCh s) < length (iters c))%nat /\
  exists s',
    step (LNotify i) s = Some s' /\
    workers s' !! i = Some WExit /\
    doneCh s' = doneCh s ++ [i].
Proof.
  intros Hb He Hwi.
  pose proof (exec_consistent _ _ _ _ _ _ Hb He) as Hcs.
  destruct (exec_constants _ _ _ He) as (_ & _ & _ & Hlen & _).
  simpl in Hlen.
  destruct Hcs as [Hw Hi Hl Hle _ _ _ _ _ _ _].
  pose proof (exited_lt _ _ _ Hwi eq_refl) as Hlt.
  assert (Hroom : (length (doneCh s) < length (iters (crw s)))%nat) by lia.
  split; [lia|].
  unfold step. rewrite Hwi.
  apply Nat.ltb_lt in Hroom. rewrite Hroom.
  eexists. split; [reflexivity|]. simpl. split; [|reflexivity].
  apply list_lookup_insert_eq. by eapply lookup_lt_Some.
Qed.

(** X13: [liveIters] counts the notifications [run] has still to receive:
    those of the goroutines that have not returned and those waiting in
    [doneCh]. It stays between 0 and the number of iterators, and is at
    least 1 as long as [run] is in its loop. *)
Theorem liveIters_accounting c w T t0 ls s :
  Z.of_nat (length (iters c)) < 2 ^ 63 ->
  exec ls (run_init c w T t0) = Some s ->
  let n := Z.of_nat (length (iters c)) in
  liveIters s = (n - exited (workers s)) + Z.of_nat (length (doneCh s)) /\
  0 <= exited (workers s) <= n /\
  Z.of_nat (length (doneCh s)) <= liveIters s <= n /\
  (pc s = PLoop -> 0 < n -> 1 <= liveIters s).
Proof.
  intros Hb He.
  destruct (exec_loop_live _ _ _ _ _ _ Hb He) as [Hcs Hlive].
  destruct (exec_constants _ _ _ He) as (_ & _ & _ & Hlen & _).
  simpl in Hlen.
  destruct Hcs as [Hw Hi Hl Hle _ _ _ _ _ _ _].
  pose proof (exited_bounds (workers s)) as Hbd.
  cbv zeta. rewrite <- Hlen. repeat split; try lia.
  intros Hpc Hn. apply Hlive; [exact Hpc | lia].
Qed.

(** X14: [run] never writes the input set or the revalidation interval,
    and it writes the output set, asks the resolver and reads the wall
    clock only in [updateNode], for a node received on [c.ch]: every other
    step leaves the output set and the world as they are. *)
Theorem run_writes_through_updateNode c w T t0 ls s l s' :
  exec ls (run_init c w T t0) = Some s ->
  step l s = Some s' ->
  input (crw s') = input c /\
  revalidateInterval (crw s') = revalidateInterval c /\
  match l with
  | LNode i _ =>
      exists n,
        workers s !! i = Some (WSend n) /\
        output (crw s') = output (crawler_of (updateNode n (crw s) (wld s))) /\
        wld s' = world_of (updateNode n (crw s) (wld s))
  | _ => output (crw s') = output (crw s) /\ wld s' = wld s
  end.
Proof.
  intros He Hs.
  assert (Hconst : input (crw s) = input c /\
                   revalidateInterval (crw s) = revalidateInterval c).
  { revert He.
    apply (exec_ind (fun s => input (crw s) = input c /\
                              revalidateInterval (crw s) = revalidateInterval c)).
    - by split.
    - intros l0 s1 s2 [H1 H2] Hs0.
      destruct l0; step_cases Hs0; simpl; try (by split).
      destruct (updateNode_others n (crw s1) (wld s1)) as (-> & _ & _ & -> & _).
      by split. }
  destruct Hconst as [H1 H2].
  destruct l; step_cases Hs; simpl; try (repeat split; assumption).
  destruct (updateNode_others n (crw s) (wld s)) as (-> & _ & _ & -> & _).
  repeat split; eauto.
Qed.

(** X15: a crawl seeded with positive scores only has positive scores
    only, in every state of [run], so in the set [run] returns. *)
Theorem run_keeps_positive_scores inp its d w T t0 ls s :
  positive_scores inp ->
  exec ls (run_init (set_revalidateInterval d (newCrawler inp its)) w T t0)
  = Some s ->
  positive_scores (output (crw s)).
Proof.
  intros Hpos.
  apply (exec_ind (fun s => positive_scores (output (crw s)))).
  - simpl.
    change (map_fold _ _ _) with (output (newCrawler inp its)).
    by rewrite newCrawler_output.
  - intros l s1 s2 H1 Hs.
    destruct l; step_cases Hs; simpl; try assumption.
    by apply updateNode_keeps_positive.
Qed.

(** ** The shutdown sequence ends, however it is scheduled *)

Lemma todo_insert ws i w w' :
  ws !! i = Some w ->
  (workers_todo (<[i := w']> ws) + worker_todo w
   = workers_todo ws + worker_todo w')%nat.
Proof.
  revert i. induction ws as [|x ws IH]; intros [|i] H; simpl in *; try done.
  - injection H as ->. lia.
  - specialize (IH _ H). lia.
Qed.

Lemma todo_bound ws :
  (workers_todo ws <= 3 * length ws)%nat.
Proof.
  induction ws as [|x ws IH]; simpl; [lia|]. destruct x; simpl; lia.
Qed.

(** After the loop every step, of [run] or of a goroutine, uses up some of
    what is left to do. *)
Lemma step_todo l s s' :
  consistent s -> pc s <> PLoop -> is_wait l = false ->
  step l s = Some s' ->
  pc s' <> PLoop /\ (todo s' < todo s)%nat.
Proof.
  intros Hcs Hl Hnw Hs.
  pose proof Hcs as [Hw Hi Hlive Hle Hd Hn Ha Hc Hic Hr Hf].
  pose proof (exited_bounds (workers s)) as Hb.
  destruct l; try discriminate Hnw; step_cases Hs; try congruence;
    unfold todo; simpl; rewrite ?length_insert.
  all: try match goal with
           | H : ?ws !! ?i = Some _
             |- context [workers_todo (<[?i := ?w']> ?ws)] =>
               pose proof (todo_insert _ _ _ w' H)
           end.
  all: try match goal with
           | H : pc _ = _ |- _ => rewrite H in *
           end.
  all: try match goal with
           | H : iters _ !! _ = Some _ |- _ =>
               pose proof (lookup_lt_Some _ _ _ H)
           end.
  all: try match goal with
           | H : (0 <? liveIters _) = true |- _ => apply Z.ltb_lt in H
           end.
  all: try rewrite (int_decr_live _ (Z.of_nat (length (iters (crw s))))) by lia.
  all: simpl in *; split; try congruence; try lia.
Qed.

Lemma todo_after_loop s :
  consistent s -> pc s <> PLoop ->
  (todo s <= 5 * length (iters (crw s)) + 4)%nat.
Proof.
  intros [Hw _ _ Hle _ _ _ _ _ _ _] Hl.
  pose proof (todo_bound (workers s)) as Hb.
  unfold todo. destruct (pc s); simpl; try done; lia.
Qed.

(** After the loop some goroutine can take a step, as long as [run] has
    not returned. *)
Lemma after_loop_step s :
  consistent s -> pc s <> PLoop -> pc s <> PReturned ->
  exists l s', is_wait l = false /\ step l s = Some s'.
Proof.
  intros Hcs Hl Hr.
  destruct (shutdown_progress s Hcs Hl Hr) as (l & s' & Hs & _ & Hlt).
  exists l, s'. split; [|done].
  destruct l; try reflexivity.
  unfold step in Hs. destruct (0 <? d); [|done]. injection Hs as <-.
  unfold remaining in Hlt. simpl in Hlt. lia.
Qed.

(** X16: once [run] has left its loop it returns, however the goroutines
    are scheduled: every step taken after the loop, by [run] or by a
    goroutine, uses up some of a finite amount of work, at most
    5 * len(c.iters) + 4 steps in all, and as long as [run] has not
    returned some step can be taken. *)
Theorem shutdown_terminates c w T t0 ls s ls' s' :
  Z.of_nat (length (iters c)) < 2 ^ 63 ->
  exec ls (run_init c w T t0) = Some s ->
  pc s <> PLoop ->
  forallb (fun l => negb (is_wait l)) ls' = true ->
  exec ls' s = Some s' ->
  pc s' <> PLoop /\
  (length ls' + todo s' <= todo s)%nat /\
  (length ls' <= 5 * length (iters c) + 4)%nat /\
  (pc s' <> PReturned ->
   exists l s'', is_wait l = false /\ step l s' = Some s'').
Proof.
  intros Hb He Hl Hnw He'.
  pose proof (exec_consistent _ _ _ _ _ _ Hb He) as Hcs.
  destruct (exec_constants _ _ _ He) as (_ & _ & _ & Hlen & _).
  simpl in Hlen.
  pose proof (todo_after_loop s Hcs Hl) as Hbound.
  assert (Hrun : consistent s' /\ pc s' <> PLoop /\
                 (length ls' + todo s' <= todo s)%nat).
  { clear He Hlen Hbound. revert s Hcs Hl Hnw He'.
    induction ls' as [|l ls' IH]; intros s Hcs Hl Hnw He'; simpl in *.
    - injection He' as <-. split; [done|]. split; [done|lia].
    - apply andb_prop in Hnw as [Hl0 Hnw]. apply negb_true_iff in Hl0.
      destruct (step l s) as [s1|] eqn:Hs; [|done].
      destruct (step_todo _ _ _ Hcs Hl Hl0 Hs) as [Hl1 Hlt].
      destruct (IH s1) as (Hcs' & Hl' & Hle); try done.
      { by eapply step_consistent. }
      split; [done|]. split; [done|lia]. }
  destruct Hrun as (Hcs' & Hl' & Hle).
  split; [done|]. split; [lia|]. split; [lia|].
  intros Hr. by apply after_loop_step.
Qed.

(** ** The tallies of [run] *)

Lemma deliveries_nonneg ls : 0 <= deliveries ls.
Proof. induction ls as [|l ls IH]; simpl; [lia|]. destruct (is_delivery l); lia. Qed.

(** How one call changes the size of the output set. *)
Lemma updateNode_size n c w :
  let k := Z.of_nat (size (output c)) in
  let k' := Z.of_nat (size (output (crawler_of (updateNode n c w)))) in
  match result (updateNode n c w) with
  | nodeRemoved => k' = k - 1
  | nodeAdded => k <= k' <= k + 1
  | _ => k' = k
  end.
Proof.
  cbv zeta. pose proof (updateNode_dom_cases n c w) as H. cbv zeta in H.
  rewrite <- !size_dom.
  destruct (result (updateNode n c w)).
  - destruct H as [Hin ->].
    rewrite size_difference by (by apply singleton_subseteq_l).
    rewrite size_singleton.
    apply singleton_subseteq_l, subseteq_size in Hin.
    rewrite size_singleton in Hin. lia.
  - by rewrite H.
  - by rewrite H.
  - rewrite H, size_union_alt, size_singleton.
    assert (Hd : dom (output c) ∖ {[Node_ID n]} ⊆ dom (output c)).
    { intros x Hx. by apply elem_of_difference in Hx as [Hx _]. }
    apply subseteq_size in Hd.
    destruct (decide (Node_ID n ∈ dom (output c))) as [Hin|Hout].
    + rewrite size_difference by (by apply singleton_subseteq_l).
      rewrite size_singleton.
      apply singleton_subseteq_l, subseteq_size in Hin.
      rewrite size_singleton in Hin. lia.
    + assert (He : dom (output c) ∖ {[Node_ID n]} = dom (output c)).
      { apply set_eq. intros x. rewrite elem_of_difference, elem_of_singleton.
        split; [tauto|]. intros Hx. split; [done|]. congruence. }
      rewrite He. lia.
  - destruct H as [_ ->]. reflexivity.
Qed.

(** The switch after [updateNode] counts the call once; the other steps of
    [run] leave the tallies, the request log and the output set alone. *)
Lemma step_tally l s s' :
  step l s = Some s' ->
  let d := if is_delivery l then 1 else 0 in
  tally_ok (stats s) -> tally_total (stats s) + d < 2 ^ 63 ->
  tally_ok (stats s') /\
  tally_total (stats s') = tally_total (stats s) + d /\
  Z.of_nat (length (requests (wld s'))) + recent (stats s')
  = Z.of_nat (length (requests (wld s))) + recent (stats s) + d /\
  Z.of_nat (size (output (crw s'))) - added (stats s') + removed (stats s')
  <= Z.of_nat (size (output (crw s))) - added (stats s) + removed (stats s) /\
  Z.of_nat (size (output (crw s))) + removed (stats s)
  <= Z.of_nat (size (output (crw s'))) + removed (stats s').
Proof.
  intros Hs d Hok Hlt. subst d. unfold tally_ok, tally_total in *.
  destruct l; simpl in Hlt; step_cases Hs; simpl; try (repeat split; lia).
  pose proof (updateNode_size n (crw s) (wld s)) as Hsize.
  pose proof (updateNode_recent_iff n (crw s) (wld s)) as Hrec.
  destruct (updateNode_world n (crw s) (wld s)) as (_ & _ & Hreq & _).
  cbv zeta in Hsize. rewrite Hreq.
  assert (Hinc : forall x, 0 <= x < 2 ^ 63 - 1 -> int_incr x = x + 1).
  { intros x Hx. apply int_wrap_id. unfold int_range. lia. }
  destruct (result (updateNode n (crw s) (wld s))) eqn:Hst; simpl;
    rewrite Hinc by lia;
    (destruct (recently_seen n (crw s) (wld s));
     [try (destruct Hrec as [_ Hrec]; specialize (Hrec eq_refl); discriminate)
     |try (destruct Hrec as [Hrec _]; specialize (Hrec eq_refl); discriminate)]);
    rewrite ?length_app; simpl; repeat split; lia.
Qed.

Lemma exec_tally ls s0 s :
  exec ls s0 = Some s ->
  tally_ok (stats s0) ->
  tally_total (stats s0) + deliveries ls < 2 ^ 63 ->
  tally_ok (stats s) /\
  tally_total (stats s) = tally_total (stats s0) + deliveries ls /\
  Z.of_nat (length (requests (wld s))) + recent (stats s)
  = Z.of_nat (length (requests (wld s0))) + recent (stats s0) + deliveries ls /\
  Z.of_nat (size (output (crw s))) - added (stats s) + removed (stats s)
  <= Z.of_nat (size (output (crw s0))) - added (stats s0) + removed (stats s0) /\
  Z.of_nat (size (output (crw s0))) + removed (stats s0)
  <= Z.of_nat (size (output (crw s))) + removed (stats s).
Proof.
  revert s0. induction ls as [|l ls IH]; intros s0 He Hok Hlt; simpl in *.
  - injection He as <-. split; [exact Hok|]. repeat split; lia.
  - destruct (step l s0) as [s1|] eqn:Hs; [|done].
    pose proof (deliveries_nonneg ls) as Hnn.
    destruct (step_tally _ _ _ Hs Hok) as (Hok1 & Ht1 & Hr1 & Ha1 & Hb1).
    { cbv zeta. destruct (is_delivery l); lia. }
    destruct (IH s1 He Hok1) as (Hok' & Ht & Hr & Ha & Hb); [lia|].
    split; [exact Hok'|]. repeat split; lia.
Qed.

(** X17: the five tallies of [run] count the nodes received on [c.ch],
    each once: they are never negative and their sum is the number of
    calls of [updateNode]; the resolver was asked once for every call that
    was not tallied as recent. *)
Theorem tallies_count_deliveries c w T t0 ls s :
  exec ls (run_init c w T t0) = Some s ->
  deliveries ls < 2 ^ 63 ->
  tally_ok (stats s) /\
  tally_total (stats s) = deliveries ls /\
  Z.of_nat (length (requests (wld s)))
  = Z.of_nat (length (requests w)) + deliveries ls - recent (stats s).
Proof.
  intros He Hlt.
  destruct (exec_tally _ _ _ He) as (Hok & Ht & Hr & _).
  - unfold tally_ok. simpl. lia.
  - exact Hlt.
  - simpl in *. unfold tally_total in Ht. simpl in Ht.
    split; [exact Hok|]. split; [exact Ht | lia].
Qed.

(** X18: the size of the output set against the tallies: it is at most
    the size at the entry of [run] plus [added] minus [removed], and at
    least that size minus [removed]. *)
Theorem output_size_accounting c w T t0 ls s :
  exec ls (run_init c w T t0) = Some s ->
  deliveries ls < 2 ^ 63 ->
  Z.of_nat (size (output c)) - removed (stats s)
  <= Z.of_nat (size (output (crw s)))
  <= Z.of_nat (size (output c)) + added (stats s) - removed (stats s).
Proof.
  intros He Hlt.
  destruct (exec_tally _ _ _ He) as (_ & _ & _ & Ha & Hb).
  - unfold tally_ok. simpl. lia.
  - exact Hlt.
  - simpl in *. lia.
Qed.

(** X19: [run] leaves its loop in two ways only, and touches nothing in
    doing so. Either it receives the last notification: [liveIters] drops
    from 1 to 0, every goroutine has returned and [doneCh] is empty. Or the
    timeout fires: then the timeout is positive and has elapsed, and the
    goroutine of the replay iterator has returned. *)
Theorem loop_exit_cases c w T t0 ls s l s' :
  Z.of_nat (length (iters c)) < 2 ^ 63 ->
  exec ls (run_init c w T t0) = Some s ->
  step l s = Some s' ->
  pc s = PLoop -> pc s' <> PLoop ->
  pc s' = PClose /\ crw s' = crw s /\ wld s' = wld s /\
  stats s' = stats s /\ closed s' = false /\
  ((l = LDone /\ liveIters s = 1 /\ liveIters s' = 0 /\
    Forall (fun x => x = WExit) (workers s') /\ doneCh s' = []) \/
   (l = LTimeout /\ s' = with_pc PClose s /\ 0 < T /\ t0 + T <= mono s /\
    workers s !! inputIter c = Some WExit /\ 1 <= liveIters s)).
Proof.
  intros Hb He Hs Hpc Hpc'.
  destruct (exec_loop_live _ _ _ _ _ _ Hb He) as [Hcs Hlive].
  pose proof (step_consistent _ _ _ Hcs Hs) as Hcs'.
  destruct (exec_constants _ _ _ He) as (HT & Hst & Hin & Hlen & _).
  simpl in HT, Hst, Hin, Hlen.
  pose proof (ok_closed _ Hcs) as Hcl. rewrite Hpc in Hcl. simpl in Hcl.
  destruct l;
    try (step_cases Hs; simpl in *; congruence).
  - (* LDone *)
    unfold step in Hs. rewrite Hpc in Hs.
    destruct (doneCh s) as [|it rest] eqn:Heql; [done|].
    cbv zeta in Hs. injection Hs as <-. simpl in *.
    destruct (int_wrap (liveIters s - 1) =? 0) eqn:Heqb; [|congruence].
    apply Z.eqb_eq in Heqb.
    destruct (consistent_zero _ Hcs') as (_ & Hd & Hw); [simpl; lia|].
    simpl in Hd, Hw.
    assert (Hone : liveIters s = 1).
    { destruct Hcs as [Hw0 Hi Hl Hle _ _ _ _ _ _ _].
      pose proof (exited_bounds (workers s)).
      rewrite Heql in Hl. simpl in Hl.
      rewrite (int_decr_live _ (Z.of_nat (length (iters (crw s))))) in Heqb;
        lia. }
    repeat split; try done. left. repeat split; done.
  - (* LTimeout *)
    unfold step in Hs. rewrite Hpc in Hs.
    destruct (timeoutCh s && timer_fired s) eqn:Heqb; [|done].
    injection Hs as <-. simpl in *.
    apply andb_prop in Heqb as [Harm Hfired].
    destruct (ok_armed _ Hcs Harm) as (HTpos & Hwi & _).
    unfold timer_fired in Hfired. apply Z.leb_le in Hfired.
    repeat split; try done. right.
    repeat split; try done; try congruence; try lia.
    apply Hlive; [done|]. apply lookup_lt_Some in Hwi.
    destruct Hcs as [Hw0 _ _ _ _ _ _ _ _ _ _]. lia.
Qed.

(** ** The nodes of an iterator reach [updateNode] in order *)

Lemma delivered_app i ls1 ls2 :
  delivered i (ls1 ++ ls2) = (delivered i ls1 + delivered i ls2)%nat.
Proof. induction ls1 as [|l ls1 IH]; simpl; [reflexivity|]. rewrite IH. lia. Qed.

Lemma exec_snoc ls l s0 s' :
  exec (ls ++ [l]) s0 = Some s' ->
  exists s, exec ls s0 = Some s /\ step l s = Some s'.
Proof.
  rewrite exec_app. destruct (exec ls s0) as [s|]; simpl; [|done].
  destruct (step l s) as [s1|] eqn:Hs; [|done]. intros [= <-]. eauto.
Qed.

Lemma step_closed l s s' :
  step l s = Some s' -> closed s' = false -> closed s = false.
Proof. intros Hs. destruct l; step_cases Hs; simpl; congruence. Qed.

Ltac fed_close Hcl :=
  first
    [ done
    | intros;
      try match goal with
          | H : closed _ = false |- _ => specialize (Hcl H)
          end;
      first [done | lia | congruence] ].

Lemma step_fed i it0 d l s s' :
  consistent s -> fed i it0 d s -> step l s = Some s' ->
  fed i it0 (d + (if is_delivery_of i l then 1 else 0)) s'.
Proof.
  intros Hcs (it & Hit & Hitems & Hcl & Hyield & Hw) Hs.
  pose proof (step_closed _ _ _ Hs) as Hclosed.
  pose proof (ok_closed _ Hcs) as Hsig.
  unfold fed. destruct l; simpl.
  - (* LNext *)
    rewrite Nat.add_0_r.
    destruct (decide (i0 = i)) as [->|Hne].
    + unfold step in Hs. destruct (workers s !! i) as [[]|] eqn:Hwi; try done.
      rewrite Hit in Hs. cbv zeta in Hs.
      assert (Hlt : (i < length (workers s))%nat) by (by eapply lookup_lt_Some).
      assert (Hlt' : (i < length (iters (crw s)))%nat)
        by (by eapply lookup_lt_Some).
      unfold iterator_Next in Hs.
      destruct (it_closed it) eqn:Hc.
      * injection Hs as <-. exists it. simpl.
        rewrite !list_lookup_insert_eq by done.
        repeat split; try done; try lia.
        all: fed_close Hcl.
      * destruct (items it (pos it)) as [n|] eqn:Hn.
        -- injection Hs as <-. eexists. simpl.
           rewrite !list_lookup_insert_eq by done.
           split; [reflexivity|]. simpl. repeat split; try done; try lia.
           all: fed_close Hcl.
        -- injection Hs as <-. exists it. simpl.
           rewrite !list_lookup_insert_eq by done.
           repeat split; try done; try lia.
           all: fed_close Hcl.
    + step_cases Hs; simpl in *.
      all: exists it; rewrite !list_lookup_insert_ne by done.
      all: by do 4 (split; [fed_close Hcl|]).
  - (* LAbort *)
    rewrite Nat.add_0_r. step_cases Hs; simpl in *.
    exists it. do 4 (split; [fed_close Hcl|]).
    destruct (decide (i0 = i)) as [->|Hne].
    + rewrite list_lookup_insert_eq by (by eapply lookup_lt_Some).
      rewrite Heqo in Hw. destruct Hw as [Hp _].
      split; [lia | intros; congruence].
    + rewrite list_lookup_insert_ne by done. rewrite Heqb. exact Hw.
  - (* LNotify *)
    rewrite Nat.add_0_r. step_cases Hs; simpl in *.
    exists it. do 4 (split; [fed_close Hcl|]).
    destruct (decide (i0 = i)) as [->|Hne].
    + rewrite list_lookup_insert_eq by (by eapply lookup_lt_Some).
      by rewrite Heqo in Hw.
    + by rewrite list_lookup_insert_ne.
  - (* LNode *)
    step_cases Hs; simpl in *. rewrite updateNode_iters.
    exists it. do 3 (split; [fed_close Hcl|]).
    destruct (decide (i0 = i)) as [->|Hne].
    + rewrite Nat.eqb_refl.
      rewrite list_lookup_insert_eq by (by eapply lookup_lt_Some).
      rewrite Heqo in Hw. destruct Hw as [Hp Hn].
      split; [|lia].
      intros k Hk. destruct (decide (k = d)) as [->|Hkd]; [eauto|].
      apply Hyield. lia.
    + apply Nat.eqb_neq in Hne as Hne'. rewrite Hne', Nat.add_0_r.
      rewrite list_lookup_insert_ne by done.
      by split.
  - (* LDone *)
    rewrite Nat.add_0_r. step_cases Hs; simpl in *; exists it;
      by do 4 (split; [fed_close Hcl|]).
  - (* LTimeout *)
    rewrite Nat.add_0_r. step_cases Hs; simpl in *; exists it;
      by do 4 (split; [fed_close Hcl|]).
  - (* LStatus *)
    rewrite Nat.add_0_r. step_cases Hs; simpl in *; exists it;
      by do 4 (split; [fed_close Hcl|]).
  - (* LCloseSignal *)
    rewrite Nat.add_0_r. step_cases Hs; simpl in *; exists it.
    do 4 (split; [fed_close Hcl|]).
    destruct (workers s !! i) as [[]|]; try done.
    + split; [apply Hw | done].
    + split; [apply Hw | done].
  - (* LCloseIter *)
    rewrite Nat.add_0_r. step_cases Hs; simpl in *.
    + simpl in Hsig.
      destruct (decide (k = i)) as [->|Hne].
      * exists (iterator_Close it).
        rewrite list_lookup_insert_eq by (by eapply lookup_lt_Some).
        rewrite Hit in Heqo. injection Heqo as <-.
        do 2 (split; [fed_close Hcl|]). split; [congruence|]. split; [done|].
        simpl. exact Hw.
      * exists it. rewrite list_lookup_insert_ne by done.
        by do 4 (split; [fed_close Hcl|]).
    + exists it. by do 4 (split; [fed_close Hcl|]).
  - (* LDrain *)
    rewrite Nat.add_0_r. step_cases Hs; simpl in *; exists it;
      by do 4 (split; [fed_close Hcl|]).
  - (* LReturn *)
    rewrite Nat.add_0_r. step_cases Hs; simpl in *; exists it;
      by do 4 (split; [fed_close Hcl|]).
  - (* LWait *)
    rewrite Nat.add_0_r. step_cases Hs; simpl in *; exists it;
      by do 4 (split; [fed_close Hcl|]).
Qed.

Lemma exec_fed c w T t0 i it0 ls s :
  Z.of_nat (length (iters c)) < 2 ^ 63 ->
  iters c !! i = Some it0 ->
  exec ls (run_init c w T t0) = Some s ->
  fed i it0 (delivered i ls) s.
Proof.
  intros Hb Hit0. revert s.
  induction ls as [|l ls IH] using rev_ind; intros s He.
  - injection He as <-. exists it0. simpl.
    rewrite Nat.add_0_r.
    repeat split; try done.
    + intros k Hk. lia.
    + rewrite lookup_replicate_2; [done|]. by eapply lookup_lt_Some.
  - apply exec_snoc in He as (s1 & He & Hs).
    rewrite delivered_app. simpl. rewrite Nat.add_0_r.
    eapply step_fed; [|by apply IH|exact Hs].
    by eapply exec_consistent.
Qed.

(** A goroutine that has returned stays so. *)
Lemma step_exited l s s' i :
  step l s = Some s' ->
  workers s !! i = Some WExit -> workers s' !! i = Some WExit.
Proof.
  intros Hs Hw. destruct l; step_cases Hs; simpl; try done.
  all: rewrite list_lookup_insert_ne; [done|]; congruence.
Qed.

(** Nothing is received on [c.ch] after the loop. *)
Lemma step_after_loop l s s' i :
  step l s = Some s' -> pc s <> PLoop ->
  pc s' <> PLoop /\ is_delivery_of i l = false.
Proof.
  intros Hs Hpc. destruct l; step_cases Hs; simpl; split; congruence.
Qed.

(** The step that leaves the loop: the goroutine of the replay iterator
    has returned, and [c.closed] is still open. *)
Lemma step_leaves_loop l s s' i :
  consistent s -> step l s = Some s' ->
  pc s = PLoop -> pc s' <> PLoop ->
  closed s = false /\ workers s' = workers s /\
  is_delivery_of i l = false /\
  ((inputIter (crw s) < length (workers s))%nat ->
   workers s !! inputIter (crw s) = Some WExit).
Proof.
  intros Hcs Hs Hpc Hpc'.
  pose proof (step_consistent _ _ _ Hcs Hs) as Hcs'.
  pose proof (ok_closed _ Hcs) as Hcl. rewrite Hpc in Hcl. simpl in Hcl.
  destruct l; try (step_cases Hs; simpl in *; congruence).
  - (* LDone *)
    unfold step in Hs. rewrite Hpc in Hs.
    destruct (doneCh s) as [|it rest] eqn:Heql; [done|].
    cbv zeta in Hs. injection Hs as <-. simpl in *.
    destruct (int_wrap (liveIters s - 1) =? 0) eqn:Heqb; [|congruence].
    apply Z.eqb_eq in Heqb.
    destruct (consistent_zero _ Hcs') as (_ & _ & Hw); [simpl; lia|].
    simpl in Hw. repeat split; try done.
    intros Hlt. apply lookup_lt_is_Some_2 in Hlt as [x Hx].
    rewrite Hx. f_equal. by eapply (Forall_lookup_1 _ _ _ _ Hw).
  - (* LTimeout *)
    unfold step in Hs. rewrite Hpc in Hs.
    destruct (timeoutCh s && timer_fired s) eqn:Heqb; [|done].
    injection Hs as <-. simpl in *.
    apply andb_prop in Heqb as [Harm _].
    destruct (ok_armed _ Hcs Harm) as (_ & Hwi & _).
    repeat split; done.
Qed.

(** While [c.closed] is open, the goroutine of an iterator that was not
    closed at the entry of [run] returns only when the iterator is
    exhausted. *)
Lemma fed_exited i it0 d s :
  fed i it0 d s -> it_closed it0 = false -> closed s = false ->
  workers s !! i = Some WExit ->
  items it0 (pos it0 + d)%nat = None.
Proof.
  intros (it & _ & _ & _ & _ & Hw) Hc Hcl Hwi.
  rewrite Hwi in Hw. destruct Hw as [_ Hw]. by apply Hw.
Qed.

Lemma exec_replayed c w T t0 it0 ls s :
  Z.of_nat (length (iters c)) < 2 ^ 63 ->
  iters c !! inputIter c = Some it0 ->
  it_closed it0 = false ->
  exec ls (run_init c w T t0) = Some s ->
  pc s <> PLoop ->
  workers s !! inputIter c = Some WExit /\
  items it0 (pos it0 + delivered (inputIter c) ls)%nat = None.
Proof.
  intros Hb Hit0 Hc. revert s.
  induction ls as [|l ls IH] using rev_ind; intros s He Hpc.
  - injection He as <-. done.
  - apply exec_snoc in He as (s1 & He & Hs).
    pose proof (exec_consistent _ _ _ _ _ _ Hb He) as Hcs.
    pose proof (exec_fed _ _ _ _ _ _ _ _ Hb Hit0 He) as Hfed.
    destruct (exec_constants _ _ _ He) as (_ & _ & Hin & Hlen & _).
    simpl in Hin, Hlen.
    rewrite delivered_app. simpl. rewrite Nat.add_0_r.
    destruct (decide (pc s1 = PLoop)) as [Hl|Hl].
    + destruct (step_leaves_loop _ _ _ (inputIter c) Hcs Hs Hl Hpc)
        as (Hcl & Hw & -> & Hex).
      rewrite Hin in Hex. rewrite Hw, Nat.add_0_r.
      assert (Hwi : workers s1 !! inputIter c = Some WExit).
      { apply Hex. rewrite (ok_workers _ Hcs), Hlen.
        by eapply lookup_lt_Some. }
      split; [done|]. by eapply fed_exited.
    + destruct (step_after_loop _ _ _ (inputIter c) Hs Hl) as [_ ->].
      rewrite Nat.add_0_r.
      destruct (IH s1 He Hl) as [Hwi Hnone].
      split; [by eapply step_exited | done].
Qed.

(** X20: the nodes of one iterator reach [updateNode] in the iterator's
    order, none skipped and none twice: when [run] receives a node from
    goroutine [i] after [k] earlier ones, [updateNode] is called on the
    item [k] places after the position the iterator had at the entry of
    [run]. The goroutine never changes the sequence of its iterator, and
    has advanced it by the number of nodes received, or by one more (the
    node it is offering, or was offering when [c.closed] was closed). *)
Theorem deliveries_follow_iterator c w T t0 i it0 ls s :
  Z.of_nat (length (iters c)) < 2 ^ 63 ->
  iters c !! i = Some it0 ->
  exec ls (run_init c w T t0) = Some s ->
  (forall d s', step (LNode i d) s = Some s' ->
     exists n,
       items it0 (pos it0 + delivered i ls)%nat = Some n /\
       crw s' = crawler_of (updateNode n (crw s) (wld s)) /\
       wld s' = world_of (updateNode n (crw s) (wld s))) /\
  (forall k, (k < delivered i ls)%nat ->
     is_Some (items it0 (pos it0 + k)%nat)) /\
  exists it,
    iters (crw s) !! i = Some it /\
    items it = items it0 /\
    (pos it0 + delivered i ls <= pos it <= S (pos it0 + delivered i ls))%nat /\
    (workers s !! i = Some WNext -> pos it = (pos it0 + delivered i ls)%nat).
Proof.
  intros Hb Hit0 He.
  destruct (exec_fed _ _ _ _ _ _ _ _ Hb Hit0 He)
    as (it & Hit & Hitems & _ & Hyield & Hw).
  split; [|split; [exact Hyield|]].
  - intros d s' Hs. step_cases Hs. simpl.
    destruct Hw as [_ Hn]. eauto.
  - exists it. do 2 (split; [done|]).
    destruct (workers s !! i) as [[]|]; try done.
    + split; [lia | done].
    + split; [lia | done].
    + split; [lia | done].
    + split; [lia | done].
Qed.

(** X21: [run] replays the whole input set before it can end: whenever
    [timeoutCh] is enabled, and whenever [run] has left its loop, by the
    timeout or not, the goroutine of the replay iterator has returned and
    every node of [input.nodes()] was received and passed to [updateNode];
    no more nodes than these are ever received from it. *)
Theorem replay_is_complete inp its d w T t0 ls s :
  let c := set_revalidateInterval d (newCrawler inp its) in
  Z.of_nat (length (iters c)) < 2 ^ 63 ->
  exec ls (run_init c w T t0) = Some s ->
  (delivered (inputIter c) ls <= length (nodes inp))%nat /\
  (pc s <> PLoop \/ timeoutCh s = true ->
   workers s !! inputIter c = Some WExit /\
   delivered (inputIter c) ls = length (nodes inp)).
Proof.
  intros c Hb He.
  assert (Hit0 : iters c !! inputIter c = Some (IterNodes (nodes inp))).
  { simpl. rewrite lookup_app_r by reflexivity. by rewrite Nat.sub_diag. }
  pose proof (exec_fed _ _ _ _ _ _ _ _ Hb Hit0 He) as Hfed.
  assert (Hle : (delivered (inputIter c) ls <= length (nodes inp))%nat).
  { destruct Hfed as (_ & _ & _ & _ & Hyield & _).
    destruct (delivered (inputIter c) ls) as [|k] eqn:Hd; [lia|].
    specialize (Hyield k ltac:(lia)). simpl in Hyield.
    apply lookup_lt_is_Some in Hyield. lia. }
  split; [exact Hle|]. intros Hend.
  assert (Hdone : workers s !! inputIter c = Some WExit /\
                  nodes inp !! delivered (inputIter c) ls = None).
  { destruct (decide (pc s = PLoop)) as [Hl|Hl].
    - destruct Hend as [Hend|Harm]; [done|].
      pose proof (exec_consistent _ _ _ _ _ _ Hb He) as Hcs.
      destruct (exec_constants _ _ _ He) as (_ & _ & Hin & _).
      simpl in Hin.
      destruct (ok_armed _ Hcs Harm) as (_ & Hwi & _).
      pose proof (ok_closed _ Hcs) as Hcl. rewrite Hl in Hcl. simpl in Hcl.
      rewrite Hin in Hwi. split; [exact Hwi|].
      by apply (fed_exited _ _ _ _ Hfed).
    - destruct (exec_replayed c w T t0 _ ls s Hb Hit0 eq_refl He Hl)
        as [Hwi Hnone].
      split; [exact Hwi | exact Hnone]. }
  destruct Hdone as [Hwi Hnone]. split; [exact Hwi|].
  apply lookup_ge_None in Hnone. lia.
Qed.

(** ** [run] is never stuck *)

(** X22: a crawler with at least one iterator (as [newCrawler] builds it)
    never deadlocks: in every state of an execution in which [run] has not
    returned, [run] or one of the goroutines can take a step without
    waiting for time to pass. In the loop: a goroutine that has not
    returned can go on (its node is received, its notification fits into
    [doneCh]), and when all have returned a notification is waiting in
    [doneCh]. *)
Theorem run_never_stuck c w T t0 ls s :
  Z.of_nat (length (iters c)) < 2 ^ 63 ->
  (0 < length (iters c))%nat ->
  exec ls (run_init c w T t0) = Some s ->
  pc s <> PReturned ->
  exists l s', is_wait l = false /\ step l s = Some s'.
Proof.
  intros Hb Hpos He Hr.
  destruct (exec_loop_live _ _ _ _ _ _ Hb He) as [Hcs Hlive].
  destruct (exec_constants _ _ _ He) as (_ & _ & _ & Hlen & _).
  simpl in Hlen.
  destruct (decide (pc s = PLoop)) as [Hl|Hl]; [|by apply after_loop_step].
  specialize (Hlive Hl ltac:(lia)).
  pose proof Hcs as [Hw Hi Hlv Hle _ _ _ _ _ _ _].
  destruct (first_live (workers s)) as [i|] eqn:Hfl.
  - apply first_live_Some in Hfl as (x & Hwi & Hne).
    destruct x; try discriminate Hne.
    + destruct (lookup_lt_is_Some_2 (iters (crw s)) i) as [it Hit].
      { rewrite <- Hw. by eapply lookup_lt_Some. }
      exists (LNext i). unfold step. rewrite Hwi, Hit.
      destruct (iterator_Next it). eauto.
    + exists (LNode i 0). unfold step. rewrite Hl, Hwi. simpl. eauto.
    + exists (LNotify i). unfold step. rewrite Hwi.
      pose proof (exited_lt _ _ _ Hwi eq_refl) as Hlt.
      assert (Hroom : (length (doneCh s) <? length (iters (crw s)))%nat = true).
      { apply Nat.ltb_lt. lia. }
      rewrite Hroom. eauto.
  - apply first_live_None in Hfl.
    destruct (doneCh s) as [|j rest] eqn:Hdone.
    + simpl in Hlv. lia.
    + exists LDone. unfold step. rewrite Hl, Hdone. eauto.
Qed.

(** X23: no node is lost while [c.closed] is open: every item a
    goroutine has taken from its iterator was received by [run], except
    the one it is offering on [c.ch]; a goroutine that left its loop
    then found its iterator exhausted, or closed from the entry of [run]
    on. *)
Theorem no_node_lost_before_close c w T t0 i it0 ls s :
  Z.of_nat (length (iters c)) < 2 ^ 63 ->
  iters c !! i = Some it0 ->
  exec ls (run_init c w T t0) = Some s ->
  closed s = false ->
  exists it x,
    iters (crw s) !! i = Some it /\ workers s !! i = Some x /\
    it_closed it = it_closed it0 /\
    pos it
    = (pos it0 + delivered i ls
       + match x with WSend _ => 1 | _ => 0 end)%nat /\
    (x = WDefer \/ x = WExit ->
     it_closed it0 = true \/ items it0 (pos it) = None).
Proof.
  intros Hb Hit0 He Hcl.
  destruct (exec_fed _ _ _ _ _ _ _ _ Hb Hit0 He)
    as (it & Hit & _ & Hc & _ & Hw).
  exists it. destruct (workers s !! i) as [x|]; [|done].
  exists x. do 2 (split; [done|]). split; [by apply Hc|].
  destruct x.
  - split; [lia|]. intros [|]; discriminate.
  - destruct Hw as [-> _]. split; [lia|]. intros [|]; discriminate.
  - destruct Hw as [_ Hw]. destruct (Hw Hcl) as [-> Hn].
    split; [lia|]. intros _.
    destruct (it_closed it0); [by left | right; by apply Hn].
  - destruct Hw as [_ Hw]. destruct (Hw Hcl) as [-> Hn].
    split; [lia|]. intros _.
    destruct (it_closed it0); [by left | right; by apply Hn].
Qed.

(** ** The further properties on sample data *)


Lemma step_after ls l s0 :
  runs (ls ++ [l]) s0 = true ->
  step l (after ls s0) = Some (after (ls ++ [l]) s0).
Proof.
  intros Hr. pose proof (exec_after _ _ Hr) as He.
  rewrite exec_app in He. unfold after at 1.
  destruct (exec ls s0) as [s1|]; simpl in *; [|discriminate].
  destruct (step l s1); [exact He | discriminate].
Qed.

Lemma singleton_positive_input (id : ID) (r : nodeJSON) :
  0 < Score r -> positive_scores {[id := r]}.
Proof.
  intros Hr id' r' Hl. apply lookup_singleton_Some in Hl as [_ <-]. exact Hr.
Qed.

Lemma success_on_known_record_witness :
  let c := crawl (minutes 10) {[7%N := seed 4]} in
  let now := check_time peer c reachable in
  result (updateNode peer c reachable)
  = (if IsZero (FirstResponse (seed 4)) then nodeAdded else nodeUpdated) /\
  output (crawler_of (updateNode peer c reachable)) !! Node_ID peer =
    Some {| Seq := Node_Seq peer'; N := Some peer'; Score := Score (seed 4) + 1;
            FirstResponse :=
              if IsZero (FirstResponse (seed 4)) then now
              else FirstResponse (seed 4);
            LastResponse := now; LastCheck := now |}.
Proof.
  apply (success_on_known_record peer (crawl (minutes 10) {[7%N := seed 4]})
           reachable (seed 4) peer').
  - vm_compute. reflexivity.
  - vm_compute. reflexivity.
  - vm_compute. reflexivity.
  - vm_compute. split; [discriminate | reflexivity].
Defined.

Lemma success_removes_iff_witness :
  let c := crawl (minutes 10) {[7%N := seed (-1)]} in
  (result (updateNode peer c reachable) = nodeRemoved <->
   Score (current peer c) < 0 \/ Score (current peer c) = 2 ^ 63 - 1) /\
  (result (updateNode peer c reachable) = nodeRemoved ->
   output (crawler_of (updateNode peer c reachable)) !! Node_ID peer = None).
Proof.
  apply (success_removes_iff peer (crawl (minutes 10) {[7%N := seed (-1)]})
           reachable peer').
  - vm_compute. reflexivity.
  - vm_compute. reflexivity.
  - vm_compute. split; [discriminate | reflexivity].
Defined.

Lemma first_response_set_once_witness :
  FirstResponse
    {| Seq := 3; N := Some peer; Score := 2;
       FirstResponse := 63800000000 * Second;
       LastResponse := 63899990000 * Second;
       LastCheck := 63900003600 * Second |}
  = FirstResponse (seed 4).
Proof.
  apply (first_response_set_once peer (crawl (minutes 10) {[7%N := seed 4]})
           unreachable 7%N (seed 4)).
  - vm_compute. reflexivity.
  - vm_compute. reflexivity.
  - vm_compute. reflexivity.
Defined.

Lemma second_probe_is_throttled_witness :
  let c := crawl (minutes 90) {[7%N := seed 4]} in
  let c1 := crawler_of (updateNode peer c unreachable) in
  let w1 := world_of (updateNode peer c unreachable) in
  result (updateNode peer c1 w1) = nodeSkipRecent /\
  crawler_of (updateNode peer c1 w1) = c1 /\
  requests (world_of (updateNode peer c1 w1)) = requests w1.
Proof.
  apply (second_probe_is_throttled peer
           (crawl (minutes 90) {[7%N := seed 4]}) unreachable).
  - vm_compute. reflexivity.
  - right. vm_compute. reflexivity.
  - vm_compute. reflexivity.
Defined.

Lemma zero_interval_never_throttles_witness :
  let c := crawl 0 {[7%N := seed 4]} in
  result (updateNode peer c unreachable) <> nodeSkipRecent /\
  requests (world_of (updateNode peer c unreachable))
  = requests unreachable ++ [peer].
Proof.
  apply (zero_interval_never_throttles peer (crawl 0 {[7%N := seed 4]})
           unreachable).
  - vm_compute. discriminate.
  - intros r Hr. vm_compute in Hr. injection Hr as <-.
    vm_compute. discriminate.
Defined.

Lemma notification_never_blocks_witness :
  let s := after [LNext 1; LNode 1 (seconds 10); LNext 1] gated_run in
  (length (doneCh s) < length (iters gated))%nat /\
  exists s',
    step (LNotify 1) s = Some s' /\
    workers s' !! 1%nat = Some WExit /\
    doneCh s' = doneCh s ++ [1%nat].
Proof.
  apply (notification_never_blocks gated unreachable (seconds 5) 0
           [LNext 1; LNode 1 (seconds 10); LNext 1]).
  - vm_compute. reflexivity.
  - apply exec_after. vm_compute. reflexivity.
  - vm_compute. reflexivity.
Defined.

Lemma liveIters_accounting_witness :
  let s := after slow_replay gated_run in
  let n := Z.of_nat (length (iters gated)) in
  liveIters s = (n - exited (workers s)) + Z.of_nat (length (doneCh s)) /\
  0 <= exited (workers s) <= n /\
  Z.of_nat (length (doneCh s)) <= liveIters s <= n /\
  (pc s = PLoop -> 0 < n -> 1 <= liveIters s).
Proof.
  apply (liveIters_accounting gated unreachable (seconds 5) 0 slow_replay).
  - vm_compute. reflexivity.
  - apply exec_after. vm_compute. reflexivity.
Defined.

Lemma run_writes_through_updateNode_witness :
  let s := after [LNext 1] gated_run in
  let s' := after ([LNext 1] ++ [LNode 1 (seconds 10)]) gated_run in
  input (crw s') = input gated /\
  revalidateInterval (crw s') = revalidateInterval gated /\
  exists n,
    workers s !! 1%nat = Some (WSend n) /\
    output (crw s') = output (crawler_of (updateNode n (crw s) (wld s))) /\
    wld s' = world_of (updateNode n (crw s) (wld s)).
Proof.
  apply (run_writes_through_updateNode gated unreachable (seconds 5) 0
           [LNext 1] (after [LNext 1] gated_run) (LNode 1 (seconds 10))).
  - apply exec_after. vm_compute. reflexivity.
  - apply step_after. vm_compute. reflexivity.
Defined.

Lemma run_keeps_positive_scores_witness :
  positive_scores
    (output (crw (after (slow_replay ++ [LDone; LTimeout] ++ shutdown)
                    gated_run))).
Proof.
  apply (run_keeps_positive_scores {[7%N := seed 4]} [endless] (minutes 10)
           unreachable (seconds 5) 0
           (slow_replay ++ [LDone; LTimeout] ++ shutdown)).
  - apply singleton_positive_input. vm_compute. reflexivity.
  - apply exec_after. vm_compute. reflexivity.
Defined.

Lemma shutdown_terminates_witness :
  let s := after (slow_replay ++ [LDone; LTimeout]) gated_run in
  let s' := after shutdown s in
  pc s' <> PLoop /\
  (length shutdown + todo s' <= todo s)%nat /\
  (length shutdown <= 5 * length (iters gated) + 4)%nat /\
  (pc s' <> PReturned ->
   exists l s'', is_wait l = false /\ step l s' = Some s'').
Proof.
  apply (shutdown_terminates gated unreachable (seconds 5) 0
           (slow_replay ++ [LDone; LTimeout])).
  - vm_compute. reflexivity.
  - apply exec_after. vm_compute. reflexivity.
  - vm_compute. discriminate.
  - vm_compute. reflexivity.
  - apply exec_after. vm_compute. reflexivity.
Defined.

Lemma tallies_count_deliveries_witness :
  let s := after slow_replay gated_run in
  tally_ok (stats s) /\
  tally_total (stats s) = deliveries slow_replay /\
  Z.of_nat (length (requests (wld s)))
  = Z.of_nat (length (requests unreachable)) + deliveries slow_replay
    - recent (stats s).
Proof.
  apply (tallies_count_deliveries gated unreachable (seconds 5) 0 slow_replay).
  - apply exec_after. vm_compute. reflexivity.
  - vm_compute. reflexivity.
Defined.

Lemma output_size_accounting_witness :
  let c := crawl (minutes 10) {[7%N := seed 1]} in
  let s := after replay (run_init c unreachable 0 0) in
  Z.of_nat (size (output c)) - removed (stats s)
  <= Z.of_nat (size (output (crw s)))
  <= Z.of_nat (size (output c)) + added (stats s) - removed (stats s).
Proof.
  apply (output_size_accounting (crawl (minutes 10) {[7%N := seed 1]})
           unreachable 0 0 replay).
  - apply exec_after. vm_compute. reflexivity.
  - vm_compute. reflexivity.
Defined.

Lemma loop_exit_cases_witness :
  let s := after (slow_replay ++ [LDone]) gated_run in
  let s' := after ((slow_replay ++ [LDone]) ++ [LTimeout]) gated_run in
  pc s' = PClose /\ crw s' = crw s /\ wld s' = wld s /\
  stats s' = stats s /\ closed s' = false /\
  ((LTimeout = LDone /\ liveIters s = 1 /\ liveIters s' = 0 /\
    Forall (fun x => x = WExit) (workers s') /\ doneCh s' = []) \/
   (LTimeout = LTimeout /\ s' = with_pc PClose s /\ 0 < seconds 5 /\
    0 + seconds 5 <= mono s /\
    workers s !! inputIter gated = Some WExit /\ 1 <= liveIters s)).
Proof.
  apply (loop_exit_cases gated unreachable (seconds 5) 0
           (slow_replay ++ [LDone])).
  - vm_compute. reflexivity.
  - apply exec_after. vm_compute. reflexivity.
  - apply step_after. vm_compute. reflexivity.
  - vm_compute. reflexivity.
  - vm_compute. discriminate.
Defined.

Lemma deliveries_follow_iterator_witness :
  let s := after [LNext 1] gated_run in
  let it0 := IterNodes (nodes {[7%N := seed 4]}) in
  (forall d s', step (LNode 1 d) s = Some s' ->
     exists n,
       items it0 (pos it0 + delivered 1 [LNext 1%nat])%nat = Some n /\
       crw s' = crawler_of (updateNode n (crw s) (wld s)) /\
       wld s' = world_of (updateNode n (crw s) (wld s))) /\
  (forall k, (k < delivered 1 [LNext 1%nat])%nat ->
     is_Some (items it0 (pos it0 + k)%nat)) /\
  exists it,
    iters (crw s) !! 1%nat = Some it /\
    items it = items it0 /\
    (pos it0 + delivered 1 [LNext 1%nat] <= pos it
     <= S (pos it0 + delivered 1 [LNext 1%nat]))%nat /\
    (workers s !! 1%nat = Some WNext ->
     pos it = (pos it0 + delivered 1 [LNext 1%nat])%nat).
Proof.
  apply (deliveries_follow_iterator gated unreachable (seconds 5) 0 1
           (IterNodes (nodes {[7%N := seed 4]})) [LNext 1]).
  - vm_compute. reflexivity.
  - reflexivity.
  - apply exec_after. vm_compute. reflexivity.
Defined.

Lemma replay_is_complete_witness :
  let s := after (slow_replay ++ [LDone; LTimeout]) gated_run in
  (delivered (inputIter gated) (slow_replay ++ [LDone; LTimeout])
   <= length (nodes {[7%N := seed 4]}))%nat /\
  (pc s <> PLoop \/ timeoutCh s = true ->
   workers s !! inputIter gated = Some WExit /\
   delivered (inputIter gated) (slow_replay ++ [LDone; LTimeout])
   = length (nodes {[7%N := seed 4]})).
Proof.
  apply (replay_is_complete {[7%N := seed 4]} [endless] (minutes 10)
           unreachable (seconds 5) 0 (slow_replay ++ [LDone; LTimeout])).
  - vm_compute. reflexivity.
  - apply exec_after. vm_compute. reflexivity.
Defined.

Lemma run_never_stuck_witness :
  exists l s',
    is_wait l = false /\ step l (after slow_replay gated_run) = Some s'.
Proof.
  apply (run_never_stuck gated unreachable (seconds 5) 0 slow_replay).
  - vm_compute. reflexivity.
  - vm_compute. lia.
  - apply exec_after. vm_compute. reflexivity.
  - vm_compute. discriminate.
Defined.

Lemma no_node_lost_before_close_witness :
  let s := after [LNext 1] gated_run in
  let it0 := IterNodes (nodes {[7%N := seed 4]}) in
  exists it x,
    iters (crw s) !! 1%nat = Some it /\ workers s !! 1%nat = Some x /\
    it_closed it = it_closed it0 /\
    pos it
    = (pos it0 + delivered 1 [LNext 1%nat]
       + match x with WSend _ => 1 | _ => 0 end)%nat /\
    (x = WDefer \/ x = WExit ->
     it_closed it0 = true \/ items it0 (pos it) = None).
Proof.
  apply (no_node_lost_before_close gated unreachable (seconds 5) 0 1
           (IterNodes (nodes {[7%N := seed 4]})) [LNext 1]).
  - vm_compute. reflexivity.
  - reflexivity.
  - apply exec_after. vm_compute. reflexivity.
  - vm_compute. reflexivity.
Defined.
